(** * YoMo core in Rocq

    A shallow embedding of the parts of the YoMo repository that carry its
    connection logic: the client engine ([core/client.go]), the stream broker
    ([Broker.run], [Broker.copyWithLog]), the StreamFrame codec
    ([pkg/frame-codec/y3codec/stream_frame.go]) and the serverless handler
    context ([serverless.Context]).

    Go values are modelled as follows.
    - [error] is an inductive type; the nil error is [None : option error].
    - A channel is a record of its capacity, its buffer and the number of
      goroutines parked in a receive.
    - Goroutine-visible effects (log lines, sleeps, callbacks, spawned
      goroutines) are recorded as events, in program order.
    - Go maps are stdpp [gmap]s; the unspecified iteration order of [range]
      over a map is an explicit argument.

    The file is organised in two parts: the models, one module per Go
    package or component, and then the facts proved about them. *)

From Stdlib Require Import ZArith.
From stdpp Require Import gmap strings list fin_maps.

(* ===================================================================== *)
(** * Part I: models                                                      *)
(* ===================================================================== *)

(** ** Go runtime notions shared by every package *)
Module Go.

(** The error values that flow through the modelled code.  [io_EOF] is the
    sentinel [io.EOF]; [ErrAuthenticateFailed] is the error type of package
    core tested by [errors.As]; [errors_New] is an error built from a text;
    [fmt_Errorf_w] wraps another error (its [Unwrap] returns [wrapped]). *)
Inductive error : Type :=
| io_EOF
| ErrAuthenticateFailed (ReasonFromServer : string)
| errors_New (text : string)
| fmt_Errorf_w (text : string) (wrapped : error).

#[global] Instance error_eq_dec : EqDecision error.
Proof. solve_decision. Defined.

(** [errors.As(err, new(ErrAuthenticateFailed))]: walks the [Unwrap] chain
    and reports whether some error in it has type [ErrAuthenticateFailed]. *)
Fixpoint errors_As_ErrAuthenticateFailed (err : error) : bool :=
  match err with
  | ErrAuthenticateFailed _ => true
  | fmt_Errorf_w _ wrapped => errors_As_ErrAuthenticateFailed wrapped
  | io_EOF | errors_New _ => false
  end.

(** [err == io.EOF]: comparison with the sentinel itself, no unwrapping. *)
Definition is_io_EOF (err : error) : bool := bool_decide (err = io_EOF).

(** [time.Duration] counts nanoseconds. *)
Definition Duration := Z.
Definition time_Second : Duration := 1000000000%Z.

(** A channel [make(chan A, ch_cap)].  [ch_recvq] is the number of
    goroutines blocked in a receive on it; [ch_handed] collects the values
    handed directly to such receivers, oldest first. *)
Record chan (A : Type) : Type := mkChan {
  ch_cap : nat;
  ch_buf : list A;
  ch_recvq : nat;
  ch_handed : list A
}.
Arguments mkChan {A} _ _ _ _.
Arguments ch_cap {A} _.
Arguments ch_buf {A} _.
Arguments ch_recvq {A} _.
Arguments ch_handed {A} _.

(** [make(chan A, cap)], nobody receiving yet; [make(chan A)] is the
    unbuffered [make_chan 0]. *)
Definition make_chan {A : Type} (cap : nat) : chan A := mkChan cap [] 0 [].

(** One attempt to send without waiting, as the [case ch <- x] arm of a
    [select] sees it: the value goes to a parked receiver if there is one,
    else into the buffer if there is room, else the send is not ready. *)
Definition try_send {A : Type} (x : A) (ch : chan A) : option (chan A) :=
  match ch_recvq ch with
  | S n => Some (mkChan (ch_cap ch) (ch_buf ch) n (ch_handed ch ++ [x]))
  | O =>
      if decide (length (ch_buf ch) < ch_cap ch)
      then Some (mkChan (ch_cap ch) (ch_buf ch ++ [x]) 0 (ch_handed ch))
      else None
  end.

(** Every value the channel has accepted so far. *)
Definition accepted {A : Type} (ch : chan A) : list A := ch_handed ch ++ ch_buf ch.

(** The result of a call that may park its goroutine. *)
Inductive call (A : Type) : Type :=
| Blocked
| Return (a : A).
Arguments Blocked {A}.
Arguments Return {A} _.

(** Integer conversions.  [uint32(x)] keeps the low 32 bits of an unsigned
    [x]; [int32 x] and [int64 x] are the values of an [int32] and an [int64]
    variable holding [x], the low bits read as a two's complement number;
    [uint(x)] of an [int32], where [uint] has 64 bits, extends the sign and
    reads the same bits as unsigned. *)
Definition uint32_of_uint (x : Z) : Z := (x `mod` 2 ^ 32)%Z.
Definition int32 (x : Z) : Z := ((x + 2 ^ 31) `mod` 2 ^ 32 - 2 ^ 31)%Z.
Definition int64 (x : Z) : Z := ((x + 2 ^ 63) `mod` 2 ^ 64 - 2 ^ 63)%Z.
Definition uint_of_int32 (x : Z) : Z := (int32 x `mod` 2 ^ 64)%Z.

End Go.

(** ** Package frame: the frames the modelled code builds and passes on *)
Module frame.

(** A Go [[]byte]: [None] is the nil slice, [Some l] a non-nil slice (which
    may be empty).  Bytes are integers in [0, 256). *)
Definition byteSlice := option (list Z).

(** [frame.DataFrame]. *)
Record DataFrame : Type := mkDataFrame {
  Tag : Z;
  Metadata : byteSlice;
  Payload : byteSlice;
  Streamed : bool
}.

(** [frame.BackflowFrame]. *)
Record BackflowFrame : Type := mkBackflowFrame {
  BackflowTag : Z;
  Carriage : byteSlice
}.

(** [frame.StreamFrame]: [ID] is a string, [StreamID] an [int64] and
    [ChunkSize] a [uint] (the codec converts it with [uint32(...)] and
    [uint(...)], and [source.go] builds it with [uint(len(buf))]). *)
Record StreamFrame : Type := mkStreamFrame {
  ID : string;
  StreamID : Z;
  ChunkSize : Z
}.

(** The interface [frame.Frame], as the sum of the variants used here. *)
Inductive Frame : Type :=
| FData (f : DataFrame)
| FBackflow (f : BackflowFrame)
| FStream (f : StreamFrame).

#[global] Instance DataFrame_eq_dec : EqDecision DataFrame.
Proof. solve_decision. Defined.
#[global] Instance StreamFrame_eq_dec : EqDecision StreamFrame.
Proof. solve_decision. Defined.

End frame.

(** ** Package core: the client engine of [core/client.go] *)
Module core.
Import Go frame.

Inductive ClientType : Type :=
| ClientTypeSource
| ClientTypeUpstreamZipper
| ClientTypeStreamFunction.

#[global] Instance ClientType_eq_dec : EqDecision ClientType.
Proof. solve_decision. Defined.

(** The fields of [clientOptions] that the modelled functions read. *)
Record clientOptions : Type := mkClientOptions {
  observeDataTags : list Z;
  connectUntilSucceed : bool;
  nonBlockWrite : bool;
  credential : option string
}.

(** Modelled from the spec: [defaultClientOption] is not part of the
    sources at hand; the engine configuration lists [connectUntilSucceed]
    and [nonBlockWrite] as booleans that default to false, and no tags are
    observed before [SetObserveDataTags]. *)
Definition defaultClientOption : clientOptions :=
  mkClientOptions [] false false None.

(** A [ClientOption] is a function applied to the options under
    construction ([o(option)] in [NewClient]). *)
Definition ClientOption := clientOptions -> clientOptions.

Definition WithObserveDataTags (tags : list Z) : ClientOption :=
  fun o => mkClientOptions tags (connectUntilSucceed o) (nonBlockWrite o) (credential o).
Definition WithConnectUntilSucceed : ClientOption :=
  fun o => mkClientOptions (observeDataTags o) true (nonBlockWrite o) (credential o).
Definition WithNonBlockWriteFrame : ClientOption :=
  fun o => mkClientOptions (observeDataTags o) (connectUntilSucceed o) true (credential o).
Definition WithCredential (payload : string) : ClientOption :=
  fun o => mkClientOptions (observeDataTags o) (connectUntilSucceed o) (nonBlockWrite o) (Some payload).

(** The fields of [Client] that carry state.  [ctx_cancelled] is the state
    of [c.ctx] (set by [c.ctxCancel()]); [controlStream] holds the number of
    the connection attempt that produced the current control stream. *)
Record Client : Type := mkClient {
  name : string;
  clientID : string;
  clientType : ClientType;
  opts : clientOptions;
  ctx_cancelled : bool;
  writeFrameChan : chan Frame;
  controlStream : option nat
}.

Inductive Level : Type := Debug | Info | Warn | Error.

(** What a client function does besides returning, in program order. *)
Inductive event : Type :=
| EvOpenControlStream (attempt : nat)
| EvLog (level : Level) (msg : string) (err : option error)
| EvSleep (d : Duration)
| EvSetControlStream (attempt : nat)
| EvGoRunBackground (attempt : nat)
| EvErrorfn (err : error)
| EvCtxCancel.

(** [NewClient]: the options are applied in order to the default ones; the
    write queue is [make(chan frame.Frame)].  [id] stands for the result of
    [id.New()]. *)
Definition NewClient (appName : string) (ty : ClientType)
    (options : list ClientOption) (id : string) : Client :=
  let option := fold_left (fun o f => f o) options defaultClientOption in
  mkClient appName id ty option false (make_chan 0) None.

(** The two calls [openControlStream] makes, as the network answers one
    connection attempt: the error of [OpenClientControlStream] and, when the
    stream opened, the error of [controlStream.Authenticate]. *)
Record attempt : Type := mkAttempt {
  open_err : option error;
  auth_err : option error
}.

(** [Client.openControlStream]: the first error of the two calls. *)
Definition openControlStream (a : attempt) : option error :=
  match open_err a with
  | Some err => Some err
  | None =>
      match auth_err a with
      | Some err => Some err
      | None => None
      end
  end.

(** What [Connect] has done when observed: it returned [err], or it is
    still inside its [connect:] loop. *)
Inductive outcome : Type :=
| Returned (err : option error)
| Retrying.

Definition errObserveTagNotSet : error :=
  errors_New "yomo: streamFunction cannot observe data because the required tag has not been set".

(** The loop at the label [connect:].  [net k] is the network's answer to
    the [k]-th call of [openControlStream]; [fuel] bounds the number of
    attempts that are observed. *)
Fixpoint connect_loop (fuel : nat) (o : clientOptions) (net : nat -> attempt)
    (k : nat) : outcome * list event :=
  match fuel with
  | O => (Retrying, [])
  | S fuel' =>
      match openControlStream (net k) with
      | Some err =>
          if connectUntilSucceed o && negb (errors_As_ErrAuthenticateFailed err)
          then
            let '(res, evs) := connect_loop fuel' o net (S k) in
            (res,
             EvOpenControlStream k
               :: EvLog Error "failed to connect to zipper, trying to reconnect" (Some err)
               :: EvSleep time_Second
               :: evs)
          else
            (Returned (Some err),
             [EvOpenControlStream k; EvLog Error "can not connect to zipper" (Some err)])
      | None =>
          (Returned None,
           [EvOpenControlStream k; EvLog Info "connected to zipper" None;
            EvSetControlStream k; EvGoRunBackground k])
      end
  end.

(** The guard at the top of [Connect]. *)
Definition observe_tags_missing (c : Client) : bool :=
  bool_decide (clientType c = ClientTypeStreamFunction)
  && (length (observeDataTags (opts c)) =? 0).

(** [Client.Connect]. *)
Definition Connect (fuel : nat) (c : Client) (net : nat -> attempt)
    : outcome * list event :=
  if observe_tags_missing c
  then (Returned (Some errObserveTagNotSet), [])
  else connect_loop fuel (opts c) net 0.

(** An attempt that makes [Connect] go round its loop once more. *)
Definition retried (o : clientOptions) (a : attempt) : Prop :=
  exists err, openControlStream a = Some err
              /\ connectUntilSucceed o = true
              /\ errors_As_ErrAuthenticateFailed err = false.

(** What [Connect] returns on an attempt that ends its loop. *)
Definition verdict (a : attempt) : outcome := Returned (openControlStream a).

(** The number of attempts and the time slept in a run of events. *)
Fixpoint attempts (evs : list event) : nat :=
  match evs with
  | [] => 0
  | EvOpenControlStream _ :: evs' => S (attempts evs')
  | _ :: evs' => attempts evs'
  end.

Fixpoint slept (evs : list event) : Duration :=
  match evs with
  | [] => 0%Z
  | EvSleep d :: evs' => (d + slept evs')%Z
  | _ :: evs' => slept evs'
  end.

Definition set_writeFrameChan (c : Client) (ch : chan Frame) : Client :=
  mkClient (name c) (clientID c) (clientType c) (opts c) (ctx_cancelled c) ch (controlStream c).

Definition ctxCancel (c : Client) : Client :=
  mkClient (name c) (clientID c) (clientType c) (opts c) true (writeFrameChan c) (controlStream c).

Definition errLostConnection : error := errors_New "yomo: client has lost connection".

(** [Client.blockWriteFrame]: [c.writeFrameChan <- f] and then [nil]; the
    goroutine parks while the channel is not ready. *)
Definition blockWriteFrame (f : Frame) (c : Client) : call (Client * option error * list event) :=
  match try_send f (writeFrameChan c) with
  | Some ch => Return (set_writeFrameChan c ch, None, [])
  | None => Blocked
  end.

(** [Client.nonBlockWriteFrame]: a [select] with a [default] arm. *)
Definition nonBlockWriteFrame (f : Frame) (c : Client) : call (Client * option error * list event) :=
  match try_send f (writeFrameChan c) with
  | Some ch => Return (set_writeFrameChan c ch, None, [])
  | None =>
      Return (c, Some errLostConnection,
              [EvLog Debug "failed to write frame" (Some errLostConnection)])
  end.

(** [Client.WriteFrame]. *)
Definition WriteFrame (f : Frame) (c : Client) : call (Client * option error * list event) :=
  if nonBlockWrite (opts c) then nonBlockWriteFrame f c else blockWriteFrame f c.

(** [Client.handleFrameError].  [reconnection] is the channel the supervisor
    goroutine receives on; the result is the client, the channel and the
    events of the call. *)
Definition handleFrameError (err : option error) (reconnection : chan ())
    (c : Client) : Client * chan () * list event :=
  match err with
  | None => (c, reconnection, [])
  | Some e =>
      if is_io_EOF e
      then (ctxCancel c, reconnection, [EvErrorfn e; EvCtxCancel])
      else
        match try_send () reconnection with
        | Some ch => (c, ch, [EvErrorfn e])
        | None => (c, reconnection, [EvErrorfn e])
        end
  end.

(** [Client.Write]: the [io.Writer] placeholder. *)
Definition Write (p : byteSlice) (c : Client) : Client * (Z * option error) * list event :=
  (c, (0%Z, None), []).

End core.

(** ** Package io: readers, writers and [io.Copy] *)
Module io.
Import Go.

(** An [io.ReadCloser] with an identity and a script: the successive results
    [(p, err)] of its [Read] calls, [p] being the bytes read.  Once the
    script is over, [Read] returns [(0, io.EOF)]. *)
Record ReadCloser : Type := mkReadCloser {
  rc_id : nat;
  rc_reads : list (list Z * option error)
}.

(** An [io.WriteCloser] with an identity.  Its [Write] takes every byte
    unless [w_err] is set, in which case it takes none and returns it. *)
Record Writer : Type := mkWriter {
  w_id : nat;
  w_err : option error
}.

Definition ErrShortWrite : error := errors_New "short write".
Definition errInvalidWrite : error := errors_New "invalid write result".

Definition Write (w : Writer) (p : list Z) : nat * option error :=
  match w_err w with
  | None => (length p, None)
  | Some err => (0, Some err)
  end.

(** [io.MultiWriter(ws...).Write]: each writer in turn; the first error or
    short write ends the call. *)
Fixpoint multiWrite (ws : list Writer) (p : list Z) : nat * option error :=
  match ws with
  | [] => (length p, None)
  | w :: ws' =>
      match Write w p with
      | (n, Some err) => (n, Some err)
      | (n, None) =>
          if n =? length p then multiWrite ws' p else (n, Some ErrShortWrite)
      end
  end.

(** The destination of a copy: one stream, or [io.MultiWriter] of several. *)
Inductive Dst : Type :=
| Single (w : Writer)
| MultiWriter (ws : list Writer).

Definition dst_Write (dst : Dst) (p : list Z) : nat * option error :=
  match dst with
  | Single w => Write w p
  | MultiWriter ws => multiWrite ws p
  end.

(** [io.Copy(dst, src)], the error it returns: the loop of the Go standard
    library's [copyBuffer] over the reads of [src].  As its documentation
    says, a copy that reaches the end of [src] returns [nil], not [io.EOF]:
    an [io.EOF] from [Read] only ends the loop. *)
Fixpoint io_Copy (dst : Dst) (reads : list (list Z * option error)) : option error :=
  match reads with
  | [] => None
  | (p, er) :: rest =>
      let after_read :=
        match er with
        | None => io_Copy dst rest
        | Some e => if is_io_EOF e then None else Some e
        end in
      if 0 <? length p then
        match dst_Write dst p with
        | (nw, ew) =>
            if length p <? nw
            then Some (default errInvalidWrite ew)
            else
              match ew with
              | Some e => Some e
              | None => if nw =? length p then after_read else Some ErrShortWrite
              end
        end
      else after_read
  end.

End io.

(** ** The stream broker: [Broker.run] and [Broker.copyWithLog] *)
Module broker.
Import Go io.

(** A [UniStreamConnection]: its [ID()] and the result of its
    [OpenUniStream()]. *)
Record Conn : Type := mkConn {
  ID : string;
  OpenUniStream : Writer + error
}.

Record taggedReader : Type := mkTaggedReader {
  tr_tag : string;
  tr_r : ReadCloser
}.

Record taggedConnection : Type := mkTaggedConnection {
  tc_tag : string;
  tc_conn : Conn
}.

(** The two maps local to [run]. *)
Record state : Type := mkState {
  observers : gmap string (gmap string Conn);
  readers : gmap string ReadCloser
}.

Definition init : state := mkState ∅ ∅.

(** What one turn of the supervisor loop does besides updating its maps. *)
Inductive effect : Type :=
| EffGoCopyWithLog (tag : string) (dst : Dst) (src : ReadCloser)
| EffClose (r : ReadCloser)
| EffLog (level : core.Level) (msg : string) (err : option error).

(** What the supervisor receives: an observer on [observerChan], a reader on
    [readerChan] or a tag on [readEOFChan].  With a reader comes the order
    in which [range] visits the observers of its tag, which Go leaves
    unspecified. *)
Inductive input : Type :=
| InObserver (o : taggedConnection)
| InReader (r : taggedReader) (order : list (string * Conn))
| InReadEOF (tag : string).

(** [case o := <-b.observerChan]. *)
Definition on_observer (st : state) (o : taggedConnection) : state * list effect :=
  match readers st !! tc_tag o with
  | Some r =>
      match OpenUniStream (tc_conn o) with
      | inr err => (st, [EffLog core.Debug "failed to accept a uniStream" (Some err)])
      | inl w => (st, [EffGoCopyWithLog (tc_tag o) (Single w) r])
      end
  | None =>
      match observers st !! tc_tag o with
      | None =>
          (mkState (<[tc_tag o := {[ ID (tc_conn o) := tc_conn o ]}]> (observers st))
                   (readers st), [])
      | Some m =>
          (mkState (<[tc_tag o := <[ID (tc_conn o) := tc_conn o]> m]> (observers st))
                   (readers st), [])
      end
  end.

(** The loop [for _, opener := range vv] of the reader case.  [order] lists
    the entries of [vv] in the order of the iteration; an entry deleted
    before it is reached is not produced.  The result is the map [vv] after
    the loop, the writers collected in [ws] and the log lines. *)
Fixpoint fanout (order : list (string * Conn)) (vv : gmap string Conn)
    (ws : list Writer) : gmap string Conn * list Writer * list effect :=
  match order with
  | [] => (vv, ws, [])
  | (k, opener) :: rest =>
      match vv !! k with
      | None => fanout rest vv ws
      | Some _ =>
          match OpenUniStream opener with
          | inr err =>
              (delete (ID opener) vv, ws,
               [EffLog core.Debug "failed to accept a uniStream" (Some err)])
          | inl w => fanout rest (delete (ID opener) vv) (ws ++ [w])
          end
      end
  end.

(** [case r := <-b.readerChan].  The map [vv] is the very map stored under
    the tag, so what the loop deletes is deleted there. *)
Definition on_reader (order : list (string * Conn)) (st : state) (r : taggedReader)
    : state * list effect :=
  match observers st !! tr_tag r with
  | None =>
      match readers st !! tr_tag r with
      | None => (mkState (observers st) (<[tr_tag r := tr_r r]> (readers st)), [])
      | Some _ =>
          (st, [EffClose (tr_r r);
                EffLog core.Warn "duplicate writer, close current writer" None])
      end
  | Some vv =>
      match fanout order vv [] with
      | (vv', ws, logs) =>
          (mkState (<[tr_tag r := vv']> (observers st)) (readers st),
           logs ++ [EffGoCopyWithLog (tr_tag r) (MultiWriter ws) (tr_r r)])
      end
  end.

(** [case tag := <-b.readEOFChan]. *)
Definition on_readEOF (st : state) (tag : string) : state :=
  mkState (observers st) (delete tag (readers st)).

(** One turn of the [for { select { ... } }] loop of [run]. *)
Definition step (st : state) (i : input) : state * list effect :=
  match i with
  | InObserver o => on_observer st o
  | InReader r order => on_reader order st r
  | InReadEOF tag => (on_readEOF st tag, [])
  end.

(** An input the supervisor can meet in state [st]: the order that comes
    with a reader is an enumeration of the observers of its tag. *)
Definition feasible (st : state) (i : input) : Prop :=
  match i with
  | InReader r order =>
      match observers st !! tr_tag r with
      | Some vv => order ≡ₚ map_to_list vv
      | None => True
      end
  | _ => True
  end.

(** The states of the supervisor: those [run] reaches from its empty maps. *)
Inductive reachable : state -> Prop :=
| reachable_init : reachable init
| reachable_step st i :
    reachable st -> feasible st i -> reachable (step st i).1.

(** Every observer is stored under its own [ID()]. *)
Definition keyed_by_ID (vv : gmap string Conn) : Prop :=
  forall k c, vv !! k = Some c -> ID c = k.

(** The invariant of the two maps: a tag that has an entry in [observers]
    has no parked reader, and the observers of every tag are stored under
    their IDs. *)
Definition maps_inv (st : state) : Prop :=
  (forall tag, is_Some (observers st !! tag) -> readers st !! tag = None)
  /\ (forall tag vv, observers st !! tag = Some vv -> keyed_by_ID vv).

(** The parked readers of a tag, read off the entries of the map. *)
Definition parked (st : state) (tag : string) : list ReadCloser :=
  (filter (λ kr, kr.1 = tag) (map_to_list (readers st))).*2.

(** The state after a sequence of inputs. *)
Definition run_inputs (st : state) (inputs : list input) : state :=
  fold_left (λ s i, (step s i).1) inputs st.

(** [Broker.copyWithLog]: the tag it sends on [readEOFChan], if any, and its
    log lines. *)
Definition copyWithLog (tag : string) (dst : Dst) (src : ReadCloser)
    : option string * list effect :=
  match io_Copy dst (rc_reads src) with
  | None => (None, [])
  | Some err =>
      if is_io_EOF err
      then (Some tag,
            [EffLog core.Debug "writing to all observers has been completed." None])
      else (None, [EffLog core.Debug "failed to write a uniStream" (Some err)])
  end.

(** The copy goroutine run to its end and the supervisor's next turn: the
    supervisor receives from [readEOFChan] only what [copyWithLog] sent. *)
Definition after_copy (st : state) (tag : string) (dst : Dst) (src : ReadCloser) : state :=
  match (copyWithLog tag dst src).1 with
  | Some t => (step st (InReadEOF t)).1
  | None => st
  end.

End broker.

(** ** Package serverless: the handler context *)
Module serverless.
Import Go frame.

(** The interface [frame.Writer]: a frame writer of state [W]. *)
Class FrameWriter (W : Type) : Type :=
  WriteFrame : Frame -> W -> W * option error.

(** A writer that records the frames it is given, in order, and answers
    each with the error [rec_answer] chooses. *)
Record recorder : Type := mkRecorder {
  rec_written : list Frame;
  rec_answer : Frame -> option error
}.

#[global] Instance recorder_FrameWriter : FrameWriter recorder :=
  fun f w => (mkRecorder (rec_written w ++ [f]) (rec_answer w), rec_answer w f).

(** [serverless.Context]. *)
Record Context (W : Type) : Type := mkContext {
  writer : W;
  dataFrame : DataFrame
}.
Arguments mkContext {W} _ _.
Arguments writer {W} _.
Arguments dataFrame {W} _.

(** [NewContext]. *)
Definition NewContext {W : Type} (w : W) (df : DataFrame) : Context W :=
  mkContext w df.

(** [Context.Write]. *)
Definition Write {W : Type} `{FrameWriter W} (tag : Z) (data : byteSlice)
    (c : Context W) : Context W * option error :=
  match data with
  | None => (c, None)
  | Some _ =>
      let dataFrame' := mkDataFrame tag (Metadata (dataFrame c)) data false in
      match WriteFrame (FData dataFrame') (writer c) with
      | (w, err) => (mkContext w (dataFrame c), err)
      end
  end.

End serverless.

(** ** Package y3: the interface of the TLV library the codec is built on *)
Module y3.
Import Go.

(** The library calls made by the StreamFrame codec.  The three [Set*Value]
    functions give the value bytes of a primitive packet, the three [To*]
    functions read them back; [Encode] is [NodePacketEncoder.Encode] for a
    node of the given tag to which the listed primitive packets (tag and
    value bytes) were added in order; [DecodeToNodePacket] gives the map
    [PrimitivePackets] of the decoded node. *)
Class Lib : Type := mkLib {
  SetStringValue : string -> list Z;
  SetInt64Value : Z -> list Z;
  SetUInt32Value : Z -> list Z;
  ToUTF8String : list Z -> error + string;
  ToInt64 : list Z -> error + Z;
  ToInt32 : list Z -> error + Z;
  Encode : Z -> list (Z * list Z) -> list Z;
  DecodeToNodePacket : list Z -> error + gmap Z (list Z)
}.

(** The room a list of primitive packets takes in a node, counted with six
    bytes of tag and size for each. *)
Definition payload_size (ps : list (Z * list Z)) : Z :=
  foldr (fun p n => Z.of_nat (length p.2) + 6 + n)%Z 0%Z ps.

(** The contract of the library, as far as the codec relies on it.  The
    value written by a [Set*Value] function is read back by the matching
    [To*] function; an unsigned value below [2^31] written by
    [SetUInt32Value] reads back through [ToInt32]; the value bytes of a
    string are as many as its bytes, those of an integer at most ten (five
    for 32 bits); and a node decodes to the primitive packets it was built
    from, when their tags are distinct sequence numbers in [0, 0x3F] and the
    node fits a size of 31 bits. *)
Record LibLaws (L : Lib) : Prop := mkLibLaws {
  string_value : forall s, ToUTF8String (SetStringValue s) = inr s;
  string_length : forall s, length (SetStringValue s) = String.length s;
  int64_value : forall v,
    (- 2 ^ 63 <= v < 2 ^ 63)%Z -> ToInt64 (SetInt64Value v) = inr v;
  int64_length : forall v,
    (- 2 ^ 63 <= v < 2 ^ 63)%Z -> length (SetInt64Value v) <= 10;
  uint32_value_as_int32 : forall v,
    (0 <= v < 2 ^ 31)%Z -> ToInt32 (SetUInt32Value v) = inr v;
  uint32_length : forall v,
    (0 <= v < 2 ^ 32)%Z -> length (SetUInt32Value v) <= 5;
  node_packets : forall t ps,
    (0 <= t <= 63)%Z ->
    Forall (fun p => 0 <= p.1 <= 63)%Z ps ->
    NoDup ps.*1 ->
    (payload_size ps < 2 ^ 31)%Z ->
    DecodeToNodePacket (Encode t ps) = inr (list_to_map ps)
}.

End y3.

(** ** Package y3codec: [stream_frame.go] *)
Module y3codec.
Import Go frame y3.

Definition tagStreamClientID : Z := 1.
Definition tagStreamID : Z := 2.
Definition tagStreamChunkSize : Z := 3.

(** The zero value [frame.StreamFrame{}]. *)
Definition zeroStreamFrame : StreamFrame := mkStreamFrame "" 0 0.

Section Codec.
Context {L : Lib}.

(** [byte(f.Type())] for a StreamFrame; the constant is declared in package
    frame. *)
Variable TypeStreamFrame : Z.

(** [encodeStreamFrame]. *)
Definition encodeStreamFrame (f : StreamFrame) : list Z :=
  Encode TypeStreamFrame
    [ (tagStreamClientID, SetStringValue (ID f));
      (tagStreamID, SetInt64Value (StreamID f));
      (tagStreamChunkSize, SetUInt32Value (uint32_of_uint (ChunkSize f))) ].

(** One [if p, ok := nodeBlock.PrimitivePackets[tag]; ok { ... }] block of
    the decoder: [conv] reads the packet and [set] assigns the field.  The
    frame comes back with the error, as the Go function leaves it. *)
Definition decode_field {A : Type} (node : gmap Z (list Z)) (tag : Z)
    (conv : list Z -> error + A) (set : A -> StreamFrame -> StreamFrame)
    (st : StreamFrame * option error) : StreamFrame * option error :=
  match st with
  | (f, Some err) => (f, Some err)
  | (f, None) =>
      match node !! tag with
      | None => (f, None)
      | Some p =>
          match conv p with
          | inl err => (f, Some err)
          | inr v => (set v f, None)
          end
      end
  end.

(** [decodeStreamFrame data f]: the frame [f] points to afterwards and the
    error returned. *)
Definition decodeStreamFrame (data : list Z) (f : StreamFrame)
    : StreamFrame * option error :=
  match DecodeToNodePacket data with
  | inl err => (f, Some err)
  | inr nodeBlock =>
      decode_field nodeBlock tagStreamChunkSize ToInt32
        (fun chunkSize f => mkStreamFrame (ID f) (StreamID f) (uint_of_int32 chunkSize))
        (decode_field nodeBlock tagStreamID ToInt64
           (fun streamID f => mkStreamFrame (ID f) streamID (ChunkSize f))
           (decode_field nodeBlock tagStreamClientID ToUTF8String
              (fun id f => mkStreamFrame id (StreamID f) (ChunkSize f))
              (f, None)))
  end.

End Codec.

End y3codec.

(** ** A reference implementation of the TLV library

    The wire format of section 3 of the specification, in the manner of the
    y3 library.  A packet is a tag byte, the size of its value and the value.
    The tag byte of a primitive packet is its sequence number (six bits);
    that of a node packet has the bit [0x80] set.  Sizes and integers are
    written in groups of seven bits, most significant group first, every
    byte but the last with the bit [0x80] set, in the least number of groups
    whose first group still carries the sign in its bit [0x40]. *)
Module y3ref.
Import Go y3.
Local Open Scope Z_scope.

(** [v] can be written in [size] groups. *)
Definition fits (size : nat) (v : Z) : bool :=
  (- 2 ^ (7 * Z.of_nat size - 1) <=? v) && (v <? 2 ^ (7 * Z.of_nat size - 1)).

Fixpoint size_search (fuel size : nat) (v : Z) : nat :=
  match fuel with
  | O => size
  | S fuel' => if fits size v then size else size_search fuel' (S size) v
  end.

(** The least number of groups for [v], between one and ten. *)
Definition sizeOfPVarInt (v : Z) : nat := size_search 9 1 v.

(** The groups of [v], most significant first. *)
Fixpoint pvarint_bytes (size : nat) (v : Z) : list Z :=
  match size with
  | O => []
  | S k =>
      ((if k is O then 0 else 128) + (v `div` 128 ^ Z.of_nat k) `mod` 128)
        :: pvarint_bytes k v
  end.

Definition encodePVarInt (v : Z) : list Z := pvarint_bytes (sizeOfPVarInt v) v.

Fixpoint decode_groups (acc : Z) (bs : list Z) : option (Z * list Z) :=
  match bs with
  | [] => None
  | b :: rest =>
      let acc' := acc * 128 + b `mod` 128 in
      if b <? 128 then Some (acc', rest) else decode_groups acc' rest
  end.

(** The integer at the head of [bs] and the bytes after it. *)
Definition decodePVarInt (bs : list Z) : option (Z * list Z) :=
  match bs with
  | [] => None
  | b :: _ => decode_groups (if 64 <=? b `mod` 128 then -1 else 0) bs
  end.

Definition bytes_of_string (s : string) : list Z :=
  (fun a => Z.of_N (Ascii.N_of_ascii a)) <$> String.list_ascii_of_string s.

Definition string_of_bytes (bs : list Z) : string :=
  String.string_of_list_ascii ((fun b => Ascii.ascii_of_N (Z.to_N b)) <$> bs).

(** A packet: tag byte, size, value. *)
Definition encode_packet (tag : Z) (val : list Z) : list Z :=
  tag :: encodePVarInt (Z.of_nat (length val)) ++ val.

(** The packet at the head of [bs]: its tag byte, its value and the bytes
    after it. *)
Definition decode_packet (bs : list Z) : option (Z * list Z * list Z) :=
  match bs with
  | [] => None
  | tag :: bs' =>
      match decodePVarInt bs' with
      | None => None
      | Some (len, body) =>
          if (0 <=? len) && (len <=? Z.of_nat (length body))
          then Some (tag, take (Z.to_nat len) body, drop (Z.to_nat len) body)
          else None
      end
  end.

(** The packets of a node's value, the primitive ones indexed by sequence
    number; a later packet replaces an earlier one of the same number. *)
Fixpoint decode_children (fuel : nat) (bs : list Z) (m : gmap Z (list Z))
    : option (gmap Z (list Z)) :=
  match bs with
  | [] => Some m
  | _ :: _ =>
      match fuel with
      | O => None
      | S fuel' =>
          match decode_packet bs with
          | None => None
          | Some (tag, val, rest) =>
              decode_children fuel' rest
                (if tag <? 128 then <[tag `mod` 64 := val]> m else m)
          end
      end
  end.

Definition encode_primitives (ps : list (Z * list Z)) : list Z :=
  concat (map (fun p => encode_packet (p.1 `mod` 64) p.2) ps).

Definition ErrMalformed : error := errors_New "y3: malformed packet".

Definition read_int (conv : Z -> Z) (bs : list Z) : error + Z :=
  match decodePVarInt bs with
  | Some (v, _) => inr (conv v)
  | None => inl ErrMalformed
  end.

Definition lib : Lib := {|
  SetStringValue := bytes_of_string;
  SetInt64Value := encodePVarInt;
  SetUInt32Value := fun v => encodePVarInt (int32 v);
  ToUTF8String := fun bs => inr (string_of_bytes bs);
  ToInt64 := read_int int64;
  ToInt32 := read_int int32;
  Encode := fun t ps => encode_packet (128 + t `mod` 64) (encode_primitives ps);
  DecodeToNodePacket := fun bs =>
    match decode_packet bs with
    | None => inl ErrMalformed
    | Some (_, val, _) =>
        match decode_children (length val) val ∅ with
        | Some m => inr m
        | None => inl ErrMalformed
        end
    end
|}.

End y3ref.

(** ** Peers and the accepting side of the broker *)
Module peer.
Import Go io broker.

(** The state of a [Peer]: whether its [sync.Once] has run, and the tag of
    the writer of its observe handler. *)
Record Peer : Type := mkPeer {
  once_done : bool;
  observeHandlerWriterTag : string
}.

(** [NewPeer]. *)
Definition NewPeer : Peer := mkPeer false "".

(** [Peer.SetObserveHandlerWriterTag]: the assignment runs inside
    [p.once.Do]. *)
Definition SetObserveHandlerWriterTag (tag : string) (p : Peer) : Peer :=
  if once_done p then p else mkPeer true tag.

(** What a peer does on its connection and for its observer. *)
Inductive event : Type :=
| EvRequestObserve (tag : string)
| EvOpenUniStream
| EvTagWritten (tag : string) (w : Writer)
| EvHandle (r : ReadCloser) (w : option Writer).

(** The two shapes of what [Peer.Open] returns: [(nil, err)], or the writer
    with the result of [tagWriterFunc]. *)
Inductive opened : Type :=
| OpenFailed (err : error)
| Opened (w : Writer) (err : option error).

(** [Peer.Open], given the result of [p.conn.OpenUniStream()]. *)
Definition Open (tagWriterFunc : string -> Writer -> option error)
    (tag : string) (stream : Writer + error) : opened * list event :=
  match stream with
  | inr err => (OpenFailed err, [EvOpenUniStream])
  | inl w => (Opened w (tagWriterFunc tag w), [EvOpenUniStream; EvTagWritten tag w])
  end.

(** [Peer.observing].  [accepts] are the results of the successive calls of
    [AcceptUniStream]; [opens n] is the result of the [n]-th call of
    [OpenUniStream] on the connection.  The writer given to the handler is
    [None] for [io.Discard].  The loop only returns with an error; it is
    blocked in [AcceptUniStream] once [accepts] is used up. *)
Fixpoint observing (tagWriterFunc : string -> Writer -> option error) (p : Peer)
    (opens : nat -> Writer + error) (n : nat) (accepts : list (ReadCloser + error))
    : call error * list event :=
  match accepts with
  | [] => (Blocked, [])
  | inr err :: _ => (Return err, [])
  | inl r :: rest =>
      if bool_decide (observeHandlerWriterTag p = "")
      then
        match observing tagWriterFunc p opens n rest with
        | (res, evs) => (res, EvHandle r None :: evs)
        end
      else
        match Open tagWriterFunc (observeHandlerWriterTag p) (opens n) with
        | (OpenFailed err, evs) => (Return err, evs)
        | (Opened w (Some err), evs) => (Return err, evs)
        | (Opened w None, evs) =>
            match tagWriterFunc (observeHandlerWriterTag p) w with
            | Some err =>
                (Return err, evs ++ [EvTagWritten (observeHandlerWriterTag p) w])
            | None =>
                match observing tagWriterFunc p opens (S n) rest with
                | (res, evs') =>
                    (res,
                     evs ++ EvTagWritten (observeHandlerWriterTag p) w
                         :: EvHandle r (Some w) :: evs')
                end
            end
        end
  end.

(** [Peer.Observe], given the result of [p.conn.RequestObserve(tag)]. *)
Definition Observe (tagWriterFunc : string -> Writer -> option error) (p : Peer)
    (tag : string) (request : option error)
    (opens : nat -> Writer + error) (accepts : list (ReadCloser + error))
    : call error * list event :=
  match request with
  | Some err => (Return err, [EvRequestObserve tag])
  | None =>
      match observing tagWriterFunc p opens 0 accepts with
      | (res, evs) => (res, EvRequestObserve tag :: evs)
      end
  end.

(** One turn of the loop of [Broker.AcceptingStream], as its surroundings
    decide it: the context is done, or [AcceptUniStream] returns. *)
Inductive turn : Type :=
| CtxDone
| Accept (r : ReadCloser + error).

(** [Broker.AcceptingStream].  [drain] is [b.drainReaderFunc].  The result
    is the readers sent on [readerChan], in order, and the log lines; the
    call is blocked in [AcceptUniStream] once the turns are used up. *)
Fixpoint AcceptingStream (drain : ReadCloser -> string + error) (turns : list turn)
    : list taggedReader * list effect :=
  match turns with
  | [] => ([], [])
  | CtxDone :: _ => ([], [])
  | Accept (inr err) :: _ =>
      ([], [EffLog core.Debug "failed to accept a uniStream" (Some err)])
  | Accept (inl r) :: rest =>
      match drain r with
      | inr err =>
          match AcceptingStream drain rest with
          | (sent, logs) =>
              (sent, EffLog core.Debug "ack peer stream failed" (Some err) :: logs)
          end
      | inl tag =>
          match AcceptingStream drain rest with
          | (sent, logs) => (mkTaggedReader tag r :: sent, logs)
          end
      end
  end.

(** The reader as the broker tags it, when its tag can be drained. *)
Definition tagged (drain : ReadCloser -> string + error) (r : ReadCloser)
    : option taggedReader :=
  match drain r with
  | inl tag => Some (mkTaggedReader tag r)
  | inr _ => None
  end.

End peer.

(** ** Package core, continued: the pumps and the supervisor of the client *)
Module engine.
Import Go frame core.

(** How a call of a user handler ends: it returns, or it panics with a
    value, [stack] being what [runtime.Stack] gives in the recovery. *)
Inductive completion : Type :=
| Returns
| Panics (value : string) (stack : string).

(** The handlers of a client: [c.processor] and [c.receiver], [None] when
    nil. *)
Record handlers : Type := mkHandlers {
  processor : option (DataFrame -> completion);
  receiver : option (BackflowFrame -> completion)
}.

(** What the pumps and the supervisor do, in program order.  [Ev] carries
    the events of package core; [EvCloseWithError s err] is
    [controlStream.CloseWithError(errString)] on the control stream of
    attempt [s], [errString] being the text of [err], empty for nil. *)
Inductive event : Type :=
| Ev (e : core.event)
| EvProcessor (f : DataFrame)
| EvReceiver (f : BackflowFrame)
| EvWriteFrame (f : Frame)
| EvCloseDataStream
| EvCloseWithError (stream : nat) (err : option error)
| EvGoProcessStream (stream : nat).

(** [Client.SetObserveDataTags]. *)
Definition SetObserveDataTags (tags : list Z) (c : Client) : Client :=
  mkClient (name c) (clientID c) (clientType c)
    (mkClientOptions tags (connectUntilSucceed (opts c)) (nonBlockWrite (opts c))
       (credential (opts c)))
    (ctx_cancelled c) (writeFrameChan c) (controlStream c).

(** [Client.Close]. *)
Definition Close (c : Client) : Client * option error := (ctxCancel c, None).

(** [Client.handleFrame]. *)
Definition handleFrame (hs : handlers) (f : Frame) : completion * list event :=
  match f with
  | FData ff =>
      match processor hs with
      | None => (Returns, [Ev (EvLog Warn "the processor has not been set" None)])
      | Some fn => (fn ff, [EvProcessor ff])
      end
  | FBackflow ff =>
      match receiver hs with
      | None => (Returns, [Ev (EvLog Warn "the receiver has not been set" None)])
      | Some fn => (fn ff, [EvReceiver ff])
      end
  | FStream _ =>
      (Returns, [Ev (EvLog Warn "data stream received unexpected frame" None)])
  end.

Definition newline : string := String (Ascii.ascii_of_nat 10) "".

(** The error given to the error handler after a panic:
    [fmt.Errorf("yomo: stream panic: %v\n%s", perr, buf)]. *)
Definition panic_error (value stack : string) : error :=
  errors_New ("yomo: stream panic: " +:+ value +:+ newline +:+ stack).

(** The function literal around [c.handleFrame] in [processStream]: the
    frame is handled, and a panic is recovered, logged and given to the
    error handler. *)
Definition handleFrame_recovered (hs : handlers) (f : Frame) : list event :=
  match handleFrame hs f with
  | (Returns, evs) => evs
  | (Panics value stack, evs) =>
      evs ++ [Ev (EvLog Error "stream panic" (Some (errors_New value)));
              Ev (EvErrorfn (panic_error value stack))]
  end.

(** [Client.readFrame]: what its goroutine sends on the channel it returns,
    given the results of the successive calls of [dataStream.ReadFrame]. *)
Fixpoint readFrame (reads : list (Frame + error)) : list (Frame + error) :=
  match reads with
  | [] => []
  | inl f :: rest => inl f :: readFrame rest
  | inr err :: _ => [inr err]
  end.

(** One turn of the [select] of [processStream]: a result arrives on
    [readFrameChan], or a frame arrives on [c.writeFrameChan] and
    [dataStream.WriteFrame] answers with [err]. *)
Inductive pump_input : Type :=
| Read (result : Frame + error)
| Send (f : Frame) (err : option error).

(** The turns that keep the loop going, and what they do. *)
Definition pump_turn_ok (i : pump_input) : Prop :=
  match i with
  | Read (inl _) | Send _ None => True
  | Read (inr _) | Send _ (Some _) => False
  end.

Definition pump_turn_events (hs : handlers) (i : pump_input) : list event :=
  match i with
  | Read (inl f) => handleFrame_recovered hs f
  | Read (inr _) => []
  | Send f _ => [EvWriteFrame f]
  end.

(** The state of a pump: the client, the reconnection channel, what was
    done, and whether [processStream] has returned. *)
Record pumped : Type := mkPumped {
  pm_client : Client;
  pm_reconnection : chan ();
  pm_events : list event;
  pm_returned : bool
}.

(** The end of [processStream] on an error: [handleFrameError], then the
    deferred [dataStream.Close()]. *)
Definition pump_fail (before : list event) (err : error) (c : Client)
    (reconnection : chan ()) : pumped :=
  match handleFrameError (Some err) reconnection c with
  | (c', ch, evs) => mkPumped c' ch (before ++ (Ev <$> evs) ++ [EvCloseDataStream]) true
  end.

(** The loop of [processStream] once the data stream is open. *)
Fixpoint pump (hs : handlers) (inputs : list pump_input) (c : Client)
    (reconnection : chan ()) : pumped :=
  match inputs with
  | [] => mkPumped c reconnection [] false
  | Read (inr err) :: _ => pump_fail [] err c reconnection
  | Send f (Some err) :: _ => pump_fail [EvWriteFrame f] err c reconnection
  | i :: rest =>
      match pump hs rest c reconnection with
      | mkPumped c' ch evs returned =>
          mkPumped c' ch (pump_turn_events hs i ++ evs) returned
      end
  end.

(** How the server answers the opening of a data stream: the error of
    [controlStream.RequestStream], and what [controlStream.AcceptStream]
    returns, a stream (nil or not) and an error (nil or not). *)
Record stream_answer : Type := mkStreamAnswer {
  request_err : option error;
  accepted_stream : option nat;
  accept_err : option error
}.

(** [Client.openDataStream]. *)
Definition openDataStream (ans : stream_answer) : option nat * option error * list event :=
  match request_err ans with
  | Some err => (None, Some err, [Ev (EvLog Error "request stream error" (Some err))])
  | None => (accepted_stream ans, accept_err ans, [])
  end.

(** What a call of [RequestStream] comes to: it returns a stream and an
    error, or it panics on a method call on a nil [DataStream]. *)
Inductive requested : Type :=
| RequestPanics
| RequestReturns (dataStream : option nat) (err : option error).

(** [Client.RequestStream], for a client that holds a control stream. *)
Definition RequestStream (ans : stream_answer) : requested * list event :=
  match openDataStream ans with
  | (dataStream, Some err, evs) =>
      if is_io_EOF err
      then
        match dataStream with
        | None =>
            (RequestPanics,
             Ev (EvLog Debug "client request stream" None) :: evs
               ++ [Ev (EvLog Info "client request stream EOF" None)])
        | Some _ =>
            (RequestReturns None (Some err),
             Ev (EvLog Debug "client request stream" None) :: evs
               ++ [Ev (EvLog Info "client request stream EOF" None); EvCloseDataStream])
        end
      else
        (RequestReturns None (Some err),
         Ev (EvLog Debug "client request stream" None) :: evs
           ++ [Ev (EvLog Error "client request stream error" (Some err));
               Ev (EvErrorfn err)])
  | (None, None, evs) =>
      (RequestPanics, Ev (EvLog Debug "client request stream" None) :: evs)
  | (Some dataStream, None, evs) =>
      (RequestReturns (Some dataStream) None,
       Ev (EvLog Debug "client request stream" None) :: evs
         ++ [Ev (EvLog Info "client request stream success" None)])
  end.

(** [Client.cleanStream]. *)
Definition cleanStream (controlStream : option nat) (err : option error) : list event :=
  match err with
  | Some e => [Ev (EvLog Error "client exit" (Some e))]
  | None => []
  end
  ++ match controlStream with
     | None => []
     | Some s => [EvCloseWithError s err]
     end.

(** An attempt after which the supervisor tries again. *)
Definition retriable (a : attempt) : Prop :=
  exists err, openControlStream a = Some err
              /\ errors_As_ErrAuthenticateFailed err = false.

(** How the loop at the label [reconnect:] stands: a control stream was
    opened at an attempt, authentication failed at an attempt, or the loop is
    still going round. *)
Inductive reconnected : Type :=
| Reconnected (attempt : nat)
| AuthenticateFailed (attempt : nat) (err : error)
| StillRetrying.

(** The loop at the label [reconnect:] of [runBackground].  [net k] is the
    network's answer to the [k]-th call of [openControlStream], counted from
    the first call of [Connect]. *)
Fixpoint reconnect (fuel : nat) (net : nat -> attempt) (k : nat)
    : reconnected * list event :=
  match fuel with
  | O => (StillRetrying, [])
  | S fuel' =>
      match openControlStream (net k) with
      | Some err =>
          if errors_As_ErrAuthenticateFailed err
          then (AuthenticateFailed k err, [Ev (EvOpenControlStream k)])
          else
            match reconnect fuel' net (S k) with
            | (res, evs) =>
                (res,
                 Ev (EvOpenControlStream k)
                   :: Ev (EvLog Error "reconnect error" (Some err))
                   :: Ev (EvSleep time_Second)
                   :: evs)
            end
      | None =>
          (Reconnected k,
           [Ev (EvOpenControlStream k); Ev (EvSetControlStream k); EvGoProcessStream k])
      end
  end.

(** The control stream that [openControlStream] returns with its result at
    attempt [k]: the stream that was opened, and nil when
    [OpenClientControlStream] failed ("controlStream is nil represents that
    client is not connected", as [cleanStream] has it). *)
Definition stream_of (k : nat) (a : attempt) : option nat :=
  match open_err a with
  | None => Some k
  | Some _ => None
  end.

(** What the supervisor receives in its [select]: [c.ctx] is done, the
    caller's [ctx] is done with [ctx.Err()], or a signal arrives on the
    reconnection channel. *)
Inductive sup_input : Type :=
| ClientCtxDone
| CallerCtxDone (err : error)
| Reconnection.

(** The local state of [runBackground]: the variable [controlStream] and the
    number of the next connection attempt. *)
Record sup : Type := mkSup {
  sup_controlStream : option nat;
  sup_next : nat
}.

Inductive sup_status : Type :=
| SupSelecting (s : sup)
| SupReturned
| SupRetrying.

(** The [for { select { ... } }] loop of [runBackground]. *)
Fixpoint supervise (fuel : nat) (net : nat -> attempt) (s : sup)
    (inputs : list sup_input) : sup_status * list event :=
  match inputs with
  | [] => (SupSelecting s, [])
  | ClientCtxDone :: _ => (SupReturned, cleanStream (sup_controlStream s) None)
  | CallerCtxDone err :: _ => (SupReturned, cleanStream (sup_controlStream s) (Some err))
  | Reconnection :: rest =>
      match reconnect fuel net (sup_next s) with
      | (Reconnected k, evs) =>
          match supervise fuel net (mkSup (Some k) (S k)) rest with
          | (status, evs') => (status, evs ++ evs')
          end
      | (AuthenticateFailed k err, evs) =>
          (SupReturned, evs ++ cleanStream (stream_of k (net k)) (Some err))
      | (StillRetrying, evs) => (SupRetrying, evs)
      end
  end.

(** [Client.runBackground], started by a [Connect] that succeeded at the
    attempt [k]: the first pump is started on the control stream of the
    client, and the supervisor enters its loop. *)
Definition runBackground (fuel : nat) (net : nat -> attempt) (k : nat)
    (inputs : list sup_input) : sup_status * list event :=
  match supervise fuel net (mkSup (Some k) (S k)) inputs with
  | (status, evs) => (status, EvGoProcessStream k :: evs)
  end.

(** The control streams closed in a run of events. *)
Fixpoint closes (evs : list event) : list nat :=
  match evs with
  | [] => []
  | EvCloseWithError s _ :: evs' => s :: closes evs'
  | _ :: evs' => closes evs'
  end.

(** The time slept in a run of events. *)
Fixpoint slept (evs : list event) : Duration :=
  match evs with
  | [] => 0%Z
  | Ev (EvSleep d) :: evs' => (d + slept evs')%Z
  | _ :: evs' => slept evs'
  end.

(** The error that ends the loop of [processStream] at a turn, if any. *)
Definition pump_turn_err (i : pump_input) : option error :=
  match i with
  | Read (inr err) => Some err
  | Send _ (Some err) => Some err
  | Read (inl _) | Send _ None => None
  end.



(** The errors given to the error handler in a run of events. *)
Definition reported (evs : list event) : list error :=
  omap (fun e => match e with Ev (EvErrorfn err) => Some err | _ => None end) evs.

End engine.

(** ** Package y3codec, continued: the other codecs of the sources *)
Module y3codec_more.
Import Go y3.

(** One [if p, ok := node.PrimitivePackets[tag]; ok { ... }] block of a
    decoder, for a frame of any type [F]: [conv] reads the packet and [set]
    assigns the field.  The frame comes back with the error, as the Go
    function leaves it. *)
Definition decode_block {F A : Type} (node : gmap Z (list Z)) (tag : Z)
    (conv : list Z -> error + A) (set : A -> F -> F)
    (st : F * option error) : F * option error :=
  match st with
  | (f, Some err) => (f, Some err)
  | (f, None) =>
      match node !! tag with
      | None => (f, None)
      | Some p =>
          match conv p with
          | inl err => (f, Some err)
          | inr v => (set v f, None)
          end
      end
  end.

(** [frame.HandshakeAckFrame]. *)
Record HandshakeAckFrame : Type := mkHandshakeAckFrame {
  AckID : string;
  AckClientID : string;
  AckStreamID : Z
}.

Definition tagHandshakeAckID : Z := 38.
Definition tagHandshakeAckClientID : Z := 39.
Definition tagHandshakeAckStreamID : Z := 40.

(** The StreamFrame of the earlier [stream_frame.go] kept with the sources:
    [StreamID] is a string there, and there is no [ID]. *)
Record StreamFrame0 : Type := mkStreamFrame0 {
  StreamID0 : string;
  ChunkSize0 : Z
}.

Definition tagStreamID0 : Z := 1.
Definition tagStreamChunkSize0 : Z := 2.

Section Codecs.
Context {L : Lib}.

(** [byte(f.Type())] of the two frames; the constants are declared in
    package frame. *)
Variable TypeHandshakeAckFrame : Z.
Variable TypeStreamFrame : Z.

(** [encodeHandshakeAckFrame]. *)
Definition encodeHandshakeAckFrame (f : HandshakeAckFrame) : list Z :=
  Encode TypeHandshakeAckFrame
    [ (tagHandshakeAckID, SetStringValue (AckID f));
      (tagHandshakeAckClientID, SetStringValue (AckClientID f));
      (tagHandshakeAckStreamID, SetInt64Value (AckStreamID f)) ].

(** [decodeHandshakeAckFrame data f]: the frame [f] points to afterwards and
    the error returned. *)
Definition decodeHandshakeAckFrame (data : list Z) (f : HandshakeAckFrame)
    : HandshakeAckFrame * option error :=
  match DecodeToNodePacket data with
  | inl err => (f, Some err)
  | inr node =>
      decode_block node tagHandshakeAckStreamID ToInt64
        (fun streamID f => mkHandshakeAckFrame (AckID f) (AckClientID f) streamID)
        (decode_block node tagHandshakeAckClientID ToUTF8String
           (fun clientID f => mkHandshakeAckFrame (AckID f) clientID (AckStreamID f))
           (decode_block node tagHandshakeAckID ToUTF8String
              (fun id f => mkHandshakeAckFrame id (AckClientID f) (AckStreamID f))
              (f, None)))
  end.

(** The earlier [encodeStreamFrame]. *)
Definition encodeStreamFrame0 (f : StreamFrame0) : list Z :=
  Encode TypeStreamFrame
    [ (tagStreamID0, SetStringValue (StreamID0 f));
      (tagStreamChunkSize0, SetUInt32Value (uint32_of_uint (ChunkSize0 f))) ].

(** The earlier [decodeStreamFrame]. *)
Definition decodeStreamFrame0 (data : list Z) (f : StreamFrame0)
    : StreamFrame0 * option error :=
  match DecodeToNodePacket data with
  | inl err => (f, Some err)
  | inr nodeBlock =>
      decode_block nodeBlock tagStreamChunkSize0 ToInt32
        (fun chunkSize f => mkStreamFrame0 (StreamID0 f) (uint_of_int32 chunkSize))
        (decode_block nodeBlock tagStreamID0 ToUTF8String
           (fun streamID f => mkStreamFrame0 streamID (ChunkSize0 f))
           (f, None))
  end.

End Codecs.

End y3codec_more.

(** ** Package core, continued: the metadata of a data frame *)
Module metadata.

(** Modelled from the spec: [metadata.M] and its methods [Get] and [Set] are
    declared in package metadata, which is not among the sources at hand.
    [M] is a map from strings to strings (the sources build it with a map
    literal, take its [len] and [range] over it); [Get], here [M_Get],
    looks a key up and says whether it was there; [Set], here [M_Set],
    assigns it. *)
Definition M_Get (m : gmap string string) (k : string) : string * bool :=
  match m !! k with
  | Some v => (v, true)
  | None => ("", false)
  end.

Definition M_Set (k v : string) (m : gmap string string) : gmap string string :=
  <[k := v]> m.

Definition MetadataSourceIDKey : string := "yomo-source-id".
Definition MetadataTIDKey : string := "yomo-tid".
Definition MetadataSIDKey : string := "yomo-sid".
Definition MetaTraced : string := "yomo-traced".
Definition MetaStreamed : string := "yomo-streamed".

Definition bool_string (b : bool) : string := if b then "true" else "false".

(** [NewDefaultMetadata]. *)
Definition NewDefaultMetadata (sourceID tid sid : string) (traced streamed : bool)
    : gmap string string :=
  <[MetadataSourceIDKey := sourceID]>
    (<[MetadataTIDKey := tid]>
       (<[MetadataSIDKey := sid]>
          (<[MetaTraced := bool_string traced]>
             (<[MetaStreamed := bool_string streamed]> ∅)))).

Definition GetSourceIDFromMetadata (m : gmap string string) : string :=
  (M_Get m MetadataSourceIDKey).1.
Definition GetTIDFromMetadata (m : gmap string string) : string :=
  (M_Get m MetadataTIDKey).1.
Definition GetSIDFromMetadata (m : gmap string string) : string :=
  (M_Get m MetadataSIDKey).1.
Definition GetTracedFromMetadata (m : gmap string string) : bool :=
  bool_decide ((M_Get m MetaTraced).1 = "true").
Definition GetStreamedFromMetadata (m : gmap string string) : bool :=
  bool_decide ((M_Get m MetaStreamed).1 = "true").

Definition SetTIDToMetadata (m : gmap string string) (tid : string) : gmap string string :=
  M_Set MetadataTIDKey tid m.
Definition SetSIDToMetadata (m : gmap string string) (sid : string) : gmap string string :=
  M_Set MetadataSIDKey sid m.
Definition SetTracedToMetadata (m : gmap string string) (traced : bool)
    : gmap string string :=
  M_Set MetaTraced (bool_string traced) m.
Definition SetStreamedToMetadata (m : gmap string string) (streamed : bool)
    : gmap string string :=
  M_Set MetaStreamed (bool_string streamed) m.

(** The five values the getters read. *)
Definition read_all (m : gmap string string) : string * string * string * bool * bool :=
  (GetSourceIDFromMetadata m, GetTIDFromMetadata m, GetSIDFromMetadata m,
   GetTracedFromMetadata m, GetStreamedFromMetadata m).

End metadata.

(** ** Package serverless, continued: a handler that writes several times *)
Module serverless_writes.
Import Go frame serverless.

(** The frame that [Context.Write] builds for a tag and data, if any. *)
Definition written_frame (c : Context recorder) (w : Z * byteSlice) : option Frame :=
  match w.2 with
  | Some p => Some (FData (mkDataFrame w.1 (Metadata (dataFrame c)) (Some p) false))
  | None => None
  end.

(** The context after a handler has called [Write] with each tag and data
    of [writes], in order. *)
Definition Writes (c : Context recorder) (writes : list (Z * byteSlice)) : Context recorder :=
  foldl (fun c w => (Write w.1 w.2 c).1) c writes.

End serverless_writes.

(* ===================================================================== *)
(** * Part II: facts                                                      *)
(* ===================================================================== *)

(** ** Channels *)
Module GoFacts.
Import Go.

Lemma try_send_accepted {A : Type} (x : A) (ch ch' : chan A) :
  try_send x ch = Some ch' -> accepted ch' ≡ₚ accepted ch ++ [x].
Proof.
  unfold try_send, accepted.
  destruct (ch_recvq ch) as [|n].
  - case_decide; [|discriminate].
    intros [= <-]; simpl. by rewrite (assoc (++)).
  - intros [= <-]; simpl.
    rewrite <- !(assoc (++)). apply Permutation_app_head, Permutation_app_comm.
Qed.

Lemma try_send_cap {A : Type} (x : A) (ch ch' : chan A) :
  try_send x ch = Some ch' -> ch_cap ch' = ch_cap ch.
Proof.
  unfold try_send. destruct (ch_recvq ch); [case_decide|]; by intros [= <-].
Qed.

(** A send on an unbuffered channel is ready exactly when a goroutine is
    parked in a receive. *)
Lemma try_send_unbuffered {A : Type} (x : A) (ch : chan A) :
  ch_cap ch = 0 -> (is_Some (try_send x ch) <-> 0 < ch_recvq ch).
Proof.
  intros Hcap. unfold try_send. destruct (ch_recvq ch) as [|n].
  - rewrite Hcap. case_decide; [lia|]. split; [intros [? [=]] | lia].
  - split; [lia | eauto].
Qed.

End GoFacts.

(** ** The client engine *)
Module coreFacts.
Import Go frame core.

(** *** Connect *)

Lemma observe_tags_missing_spec (c : Client) :
  observe_tags_missing c = true <->
  clientType c = ClientTypeStreamFunction /\ observeDataTags (opts c) = [].
Proof.
  unfold observe_tags_missing.
  rewrite andb_true_iff, bool_decide_eq_true, Nat.eqb_eq.
  by rewrite length_zero_iff_nil.
Qed.

Lemma connect_loop_retried (fuel : nat) (o : clientOptions) (net : nat -> attempt)
    (k : nat) (err : error) :
  openControlStream (net k) = Some err ->
  connectUntilSucceed o = true ->
  errors_As_ErrAuthenticateFailed err = false ->
  connect_loop (S fuel) o net k =
    ((connect_loop fuel o net (S k)).1,
     EvOpenControlStream k
       :: EvLog Error "failed to connect to zipper, trying to reconnect" (Some err)
       :: EvSleep time_Second
       :: (connect_loop fuel o net (S k)).2).
Proof.
  intros Ho Hc He. simpl. rewrite Ho, Hc, He. simpl.
  by destruct (connect_loop fuel o net (S k)).
Qed.

Lemma connect_loop_returns (fuel : nat) (o : clientOptions) (net : nat -> attempt)
    (k : nat) (err : error) :
  openControlStream (net k) = Some err ->
  connectUntilSucceed o = false \/ errors_As_ErrAuthenticateFailed err = true ->
  connect_loop (S fuel) o net k =
    (Returned (Some err),
     [EvOpenControlStream k; EvLog Error "can not connect to zipper" (Some err)]).
Proof.
  intros Ho Hc. simpl. rewrite Ho.
  destruct Hc as [-> | ->]; [done|]. by rewrite andb_false_r.
Qed.

(** While every attempt is one that is retried, [Connect] stays in its loop:
    after [fuel] attempts it has not returned and has slept [fuel] seconds. *)
Lemma connect_loop_forever (o : clientOptions) (net : nat -> attempt) :
  (forall k, retried o (net k)) ->
  forall fuel k,
    (connect_loop fuel o net k).1 = Retrying
    /\ attempts (connect_loop fuel o net k).2 = fuel
    /\ slept (connect_loop fuel o net k).2 = (Z.of_nat fuel * time_Second)%Z.
Proof.
  intros Hall fuel. induction fuel as [|fuel IH]; intros k; [done|].
  destruct (Hall k) as (err & Ho & Hc & He).
  rewrite (connect_loop_retried _ _ _ _ _ Ho Hc He). cbn [fst snd attempts slept].
  destruct (IH (S k)) as (-> & -> & ->). repeat split. lia.
Qed.

(** The loop ends at the first attempt that is not retried, after one second
    of sleep for each attempt before it; any fuel beyond that attempt gives
    the same result. *)
Lemma connect_loop_first_verdict (o : clientOptions) (net : nat -> attempt) (n : nat) :
  forall k fuel,
    (forall j, j < n -> retried o (net (k + j))) ->
    ~ retried o (net (k + n)) ->
    n < fuel ->
    (connect_loop fuel o net k).1 = verdict (net (k + n))
    /\ attempts (connect_loop fuel o net k).2 = S n
    /\ slept (connect_loop fuel o net k).2 = (Z.of_nat n * time_Second)%Z.
Proof.
  induction n as [|n IH]; intros k fuel Hbefore Hlast Hfuel.
  - destruct fuel as [|fuel]; [lia|]. rewrite Nat.add_0_r in Hlast.
    unfold verdict. rewrite Nat.add_0_r. simpl.
    destruct (openControlStream (net k)) as [err|] eqn:Ho; [|done].
    destruct (connectUntilSucceed o) eqn:Hc;
      destruct (errors_As_ErrAuthenticateFailed err) eqn:He; simpl; try done.
    destruct Hlast. by exists err.
  - destruct fuel as [|fuel]; [lia|].
    destruct (Hbefore 0) as (err & Ho & Hc & He); [lia|].
    rewrite Nat.add_0_r in Ho.
    rewrite (connect_loop_retried _ _ _ _ _ Ho Hc He). cbn [fst snd attempts slept].
    destruct (IH (S k) fuel) as (H1 & H2 & H3).
    + intros j Hj. replace (S k + j) with (k + S j) by lia. apply Hbefore. lia.
    + by replace (S k + n) with (k + S n) by lia.
    + lia.
    + replace (S k + n) with (k + S n) in H1 by lia.
      rewrite H1, H2, H3. repeat split. lia.
Qed.

(** C1 (counterexample).  A stream function without observed tags whose
    options ask to connect until success: [Connect] returns an error that
    is not an authentication failure, at once and without a single attempt,
    where the claim has it retry for ever. *)
Lemma Connect_returns_despite_connectUntilSucceed :
  let c := NewClient "sfn" ClientTypeStreamFunction [WithConnectUntilSucceed] "id" in
  let net := fun _ : nat => mkAttempt (Some (errors_New "timeout")) None in
  connectUntilSucceed (opts c) = true
  /\ Connect 5 c net = (Returned (Some errObserveTagNotSet), [])
  /\ errors_As_ErrAuthenticateFailed errObserveTagNotSet = false.
Proof. by vm_compute. Qed.

(** C1 (amended).  Let [Connect] pass its guard on the observed tags and let
    the first attempt to open and authenticate the control stream fail with
    [err].  Without [connectUntilSucceed], [Connect] returns [err] after that
    one attempt.  When [err] is an [ErrAuthenticateFailed] it returns [err]
    after that one attempt whatever the option says.  With the option set and
    any other error it sleeps one second and starts over; and as long as
    every attempt fails in that way it never returns: however many attempts
    are observed, it is still retrying, one second of sleep per attempt. *)
Theorem Connect_failure_policy (c : Client) (net : nat -> attempt) (err : error) :
  observe_tags_missing c = false ->
  openControlStream (net 0) = Some err ->
  (connectUntilSucceed (opts c) = false ->
     forall fuel, Connect (S fuel) c net =
       (Returned (Some err),
        [EvOpenControlStream 0; EvLog Error "can not connect to zipper" (Some err)]))
  /\ (errors_As_ErrAuthenticateFailed err = true ->
     forall fuel, Connect (S fuel) c net =
       (Returned (Some err),
        [EvOpenControlStream 0; EvLog Error "can not connect to zipper" (Some err)]))
  /\ (connectUntilSucceed (opts c) = true ->
      errors_As_ErrAuthenticateFailed err = false ->
      (forall fuel, Connect (S fuel) c net =
         ((connect_loop fuel (opts c) net 1).1,
          EvOpenControlStream 0
            :: EvLog Error "failed to connect to zipper, trying to reconnect" (Some err)
            :: EvSleep time_Second
            :: (connect_loop fuel (opts c) net 1).2))
      /\ ((forall k, retried (opts c) (net k)) ->
          forall fuel,
            (Connect fuel c net).1 = Retrying
            /\ attempts (Connect fuel c net).2 = fuel
            /\ slept (Connect fuel c net).2 = (Z.of_nat fuel * time_Second)%Z)).
Proof.
  intros Hguard Ho. unfold Connect. rewrite Hguard.
  split; [|split].
  - intros Hc fuel. apply connect_loop_returns; auto.
  - intros He fuel. apply connect_loop_returns; auto.
  - intros Hc He. split.
    + intros fuel. by apply connect_loop_retried.
    + intros Hall fuel. by apply connect_loop_forever.
Qed.

(** A source that connects until success against a network that times out
    on every attempt. *)
Lemma Connect_failure_policy_witness :
  let c := NewClient "src" ClientTypeSource [WithConnectUntilSucceed] "id" in
  let net := fun _ : nat => mkAttempt (Some (errors_New "timeout")) None in
  (Connect 3 c net).1 = Retrying
  /\ attempts (Connect 3 c net).2 = 3
  /\ slept (Connect 3 c net).2 = (3 * time_Second)%Z.
Proof.
  intros c net.
  refine (proj2 (proj2 (proj2 (Connect_failure_policy c net (errors_New "timeout")
                                 eq_refl eq_refl)) eq_refl eq_refl) _ 3).
  intros k. exists (errors_New "timeout"). by repeat split.
Defined.

(** C9.  A stream function whose options observe no tag gets a non-nil error
    from [Connect] before any attempt to open a control stream is made, and
    whatever the network would answer; for a client of another type the
    guard does not apply and [Connect] is its connection loop, observed tags
    or not. *)
Theorem Connect_requires_observed_tags (fuel : nat) (c : Client) (net : nat -> attempt) :
  (clientType c = ClientTypeStreamFunction ->
   observeDataTags (opts c) = [] ->
   Connect fuel c net = (Returned (Some errObserveTagNotSet), []))
  /\ (clientType c <> ClientTypeStreamFunction ->
      Connect fuel c net = connect_loop fuel (opts c) net 0).
Proof.
  unfold Connect. split.
  - intros Hty Htags.
    by rewrite (proj2 (observe_tags_missing_spec c) (conj Hty Htags)).
  - intros Hty. destruct (observe_tags_missing c) eqn:Hg; [|done].
    apply observe_tags_missing_spec in Hg as [? _]. contradiction.
Qed.

(** A stream function without tags is refused even when the network would
    accept it, and a source without tags connects. *)
Lemma Connect_requires_observed_tags_witness :
  let net := fun _ : nat => mkAttempt None None in
  Connect 1 (NewClient "sfn" ClientTypeStreamFunction [] "id") net
    = (Returned (Some errObserveTagNotSet), [])
  /\ Connect 1 (NewClient "src" ClientTypeSource [] "id") net
    = connect_loop 1 defaultClientOption net 0.
Proof.
  intros net. split.
  - exact (proj1 (Connect_requires_observed_tags 1
                    (NewClient "sfn" ClientTypeStreamFunction [] "id") net)
             eq_refl eq_refl).
  - refine (proj2 (Connect_requires_observed_tags 1
                     (NewClient "src" ClientTypeSource [] "id") net) _).
    discriminate.
Defined.

(** *** handleFrameError *)

Lemma is_io_EOF_true (e : error) : is_io_EOF e = true <-> e = io_EOF.
Proof. unfold is_io_EOF. apply bool_decide_eq_true. Qed.

Lemma is_io_EOF_false (e : error) : is_io_EOF e = false <-> e <> io_EOF.
Proof. unfold is_io_EOF. apply bool_decide_eq_false. Qed.

(** C5.  A nil error does nothing.  [io.EOF] cancels the context of the
    client and leaves the reconnection channel as it was: nothing is sent.
    Any other error is given to the error handler, the context stays as it
    was, and one send on the reconnection channel is tried without waiting:
    the channel takes the signal if it is ready and is left alone if not.
    (The error handler is called for [io.EOF] as well.) *)
Theorem handleFrameError_policy (c : Client) (reconnection : chan ()) :
  handleFrameError None reconnection c = (c, reconnection, [])
  /\ (handleFrameError (Some io_EOF) reconnection c
      = (ctxCancel c, reconnection, [EvErrorfn io_EOF; EvCtxCancel])
      /\ ctx_cancelled (ctxCancel c) = true)
  /\ (forall e, e <> io_EOF ->
      handleFrameError (Some e) reconnection c
      = (c, default reconnection (try_send () reconnection), [EvErrorfn e])).
Proof.
  split; [done|]. split; [done|].
  intros e He. unfold handleFrameError.
  rewrite (proj2 (is_io_EOF_false e) He).
  by destruct (try_send () reconnection).
Qed.

(** A network error while the supervisor waits on the reconnection channel:
    the handler is called and the signal is handed over. *)
Lemma handleFrameError_policy_witness :
  let c := NewClient "src" ClientTypeSource [] "id" in
  handleFrameError (Some (errors_New "connection reset")) (mkChan 0 [] 1 []) c
  = (c, mkChan 0 [] 0 [()], [EvErrorfn (errors_New "connection reset")]).
Proof.
  intros c.
  refine (proj2 (proj2 (handleFrameError_policy c (mkChan 0 [] 1 [])))
            (errors_New "connection reset") _).
  discriminate.
Defined.

(** *** WriteFrame *)

(** C6 (counterexample).  Two clients that differ only in the option
    [nonBlockWrite] have the same write queue: an unbuffered channel. *)
Lemma writeFrameChan_capacity_same_in_both_modes :
  let blocking := NewClient "src" ClientTypeSource [] "id" in
  let nonblocking := NewClient "src" ClientTypeSource [WithNonBlockWriteFrame] "id" in
  nonBlockWrite (opts blocking) = false
  /\ nonBlockWrite (opts nonblocking) = true
  /\ writeFrameChan blocking = writeFrameChan nonblocking
  /\ ch_cap (writeFrameChan nonblocking) = 0.
Proof. by vm_compute. Qed.

(** C6 (amended).  [WriteFrame] has two modes selected by [nonBlockWrite].
    In blocking mode the caller is parked exactly while the queue cannot take
    the frame, and when the call returns it returns nil and the queue has
    taken the frame.  In non-blocking mode the call always returns: nil when
    the queue takes the frame at once, and otherwise the error
    "yomo: client has lost connection" with the client unchanged, the frame
    being dropped.  The queue itself does not depend on the option: every
    client is created with an unbuffered channel. *)
Theorem WriteFrame_modes (f : Frame) (c : Client) :
  (nonBlockWrite (opts c) = false ->
     match WriteFrame f c with
     | Blocked => try_send f (writeFrameChan c) = None
     | Return (c', err, evs) =>
         err = None /\ evs = []
         /\ accepted (writeFrameChan c') ≡ₚ accepted (writeFrameChan c) ++ [f]
     end)
  /\ (nonBlockWrite (opts c) = true ->
      match try_send f (writeFrameChan c) with
      | Some ch => WriteFrame f c = Return (set_writeFrameChan c ch, None, [])
      | None =>
          WriteFrame f c =
            Return (c, Some errLostConnection,
                    [EvLog Debug "failed to write frame" (Some errLostConnection)])
      end)
  /\ (forall appName ty options id,
      writeFrameChan (NewClient appName ty options id) = make_chan 0).
Proof.
  split; [|split].
  - intros Hmode. unfold WriteFrame, blockWriteFrame. rewrite Hmode.
    destruct (try_send f (writeFrameChan c)) as [ch|] eqn:Hsend; [|done].
    repeat split. simpl. by apply GoFacts.try_send_accepted.
  - intros Hmode. unfold WriteFrame, nonBlockWriteFrame. rewrite Hmode.
    by destruct (try_send f (writeFrameChan c)).
  - done.
Qed.

(** A fresh client, nobody receiving from its queue: the blocking write
    parks the caller, the non-blocking write drops the frame. *)
Lemma WriteFrame_modes_witness :
  let f := FData (mkDataFrame 33 None (Some [116; 101; 115; 116]%Z) false) in
  let blocking := NewClient "src" ClientTypeSource [] "id" in
  let nonblocking := NewClient "src" ClientTypeSource [WithNonBlockWriteFrame] "id" in
  match WriteFrame f blocking with
  | Blocked => try_send f (writeFrameChan blocking) = None
  | Return (c', err, evs) =>
      err = None /\ evs = []
      /\ accepted (writeFrameChan c') ≡ₚ accepted (writeFrameChan blocking) ++ [f]
  end
  /\ match try_send f (writeFrameChan nonblocking) with
     | Some ch => WriteFrame f nonblocking = Return (set_writeFrameChan nonblocking ch, None, [])
     | None =>
         WriteFrame f nonblocking =
           Return (nonblocking, Some errLostConnection,
                   [EvLog Debug "failed to write frame" (Some errLostConnection)])
     end.
Proof.
  intros f blocking nonblocking. split.
  - exact (proj1 (WriteFrame_modes f blocking) eq_refl).
  - exact (proj1 (proj2 (WriteFrame_modes f nonblocking)) eq_refl).
Defined.

(** *** Write *)

(** C8.  [Client.Write] returns [(0, nil)] for every byte slice and leaves
    the client as it was: its write queue is untouched and nothing is
    logged, cancelled or sent. *)
Theorem Client_Write_placeholder (p : byteSlice) (c : Client) :
  Write p c = (c, (0%Z, None), [])
  /\ writeFrameChan (Write p c).1.1 = writeFrameChan c.
Proof. done. Qed.

End coreFacts.

(** ** The broker *)
Module brokerFacts.
Import Go io broker.

(** *** The invariants of the supervisor's maps *)

Lemma fanout_subseteq (order : list (string * Conn)) :
  forall vv ws, (fanout order vv ws).1.1 ⊆ vv.
Proof.
  induction order as [|[k opener] rest IH]; intros vv ws; simpl; [done|].
  destruct (vv !! k); [|apply IH].
  destruct (OpenUniStream opener) as [w|err]; simpl.
  - etrans; [apply IH | apply delete_subseteq].
  - apply delete_subseteq.
Qed.

Lemma keyed_by_ID_subseteq (vv vv' : gmap string Conn) :
  vv' ⊆ vv -> keyed_by_ID vv -> keyed_by_ID vv'.
Proof. intros Hsub Hvv k c Hk. eapply Hvv, lookup_weaken; eauto. Qed.

Lemma keyed_by_ID_insert (vv : gmap string Conn) (c : Conn) :
  keyed_by_ID vv -> keyed_by_ID (<[ID c := c]> vv).
Proof.
  intros Hvv k c'. rewrite lookup_insert. case_decide; [|apply Hvv].
  by intros [= <-].
Qed.

Lemma maps_inv_step (st : state) (i : input) :
  maps_inv st -> maps_inv (step st i).1.
Proof.
  intros [Hdisj Hkeys]. destruct i as [o | r order | tag]; simpl.
  - unfold on_observer.
    destruct (readers st !! tc_tag o) as [r|] eqn:Hr.
    { by destruct (OpenUniStream (tc_conn o)). }
    destruct (observers st !! tc_tag o) as [m|] eqn:Hm; simpl; split; simpl.
    + intros tag. rewrite lookup_insert. case_decide; [by subst|apply Hdisj].
    + intros tag vv. rewrite lookup_insert. case_decide; [|apply Hkeys].
      intros [= <-]. apply keyed_by_ID_insert. eapply Hkeys; eauto.
    + intros tag. rewrite lookup_insert. case_decide; [by subst|apply Hdisj].
    + intros tag vv. rewrite lookup_insert. case_decide; [|apply Hkeys].
      intros [= <-]. rewrite <- insert_empty. apply keyed_by_ID_insert.
      intros k c. by rewrite lookup_empty.
  - unfold on_reader.
    destruct (observers st !! tr_tag r) as [vv|] eqn:Hvv.
    + pose proof (fanout_subseteq order vv []) as Hsub.
      destruct (fanout order vv []) as [[vv' ws] logs]; simpl in *. split; simpl.
      * intros tag. rewrite lookup_insert. case_decide; [|apply Hdisj].
        subst. intros _. apply Hdisj. eauto.
      * intros tag vv0. rewrite lookup_insert. case_decide; [|apply Hkeys].
        intros [= <-]. eapply keyed_by_ID_subseteq; eauto.
    + destruct (readers st !! tr_tag r) eqn:Hr; simpl; [done|]. split; simpl.
      * intros tag Htag. rewrite lookup_insert. case_decide; [|by apply Hdisj].
        subst. rewrite Hvv in Htag. by destruct Htag.
      * apply Hkeys.
  - split; simpl.
    + intros t Ht. rewrite lookup_delete. case_decide; [done|by apply Hdisj].
    + apply Hkeys.
Qed.

Lemma reachable_maps_inv (st : state) : reachable st -> maps_inv st.
Proof.
  induction 1 as [|st i _ IH _].
  - split; intros tag; unfold init; simpl; rewrite lookup_empty; [by intros []|done].
  - by apply maps_inv_step.
Qed.

Lemma reachable_run_inputs (inputs : list input) :
  forall st, reachable st ->
    (forall pre i post, inputs = pre ++ i :: post -> feasible (run_inputs st pre) i) ->
    reachable (run_inputs st inputs).
Proof.
  induction inputs as [|i inputs IH]; intros st Hst Hfeas; [done|].
  simpl. apply IH.
  - apply reachable_step; [done|]. apply (Hfeas [] i inputs eq_refl).
  - intros pre j post ->. apply (Hfeas (i :: pre) j post eq_refl).
Qed.

(** *** The loop over the observers *)

(** When the iteration visits entries of [vv] with distinct keys, stored
    under their IDs, and a stream opens on each, the loop runs to its end:
    it opens one stream per entry, in order, logs nothing, and leaves in the
    map exactly the entries it did not visit. *)
Lemma fanout_all_opened (order : list (string * Conn)) :
  forall vv ws,
    NoDup order.*1 ->
    (forall k c, (k, c) ∈ order ->
       vv !! k = Some c /\ ID c = k /\ exists w, OpenUniStream c = inl w) ->
    exists ws',
      (fanout order vv ws).1.2 = ws ++ ws'
      /\ (fanout order vv ws).2 = []
      /\ Forall2 (fun kc w => OpenUniStream kc.2 = inl w) order ws'
      /\ forall j, (fanout order vv ws).1.1 !! j
                   = if decide (j ∈ order.*1) then None else vv !! j.
Proof.
  induction order as [|[k opener] rest IH]; intros vv ws Hnd Hall; simpl.
  - exists []. rewrite app_nil_r.
    split; [done|]. split; [done|]. split; [constructor|].
    done.
  - destruct (Hall k opener) as (Hk & Hid & w & Hw); [left|].
    rewrite Hk, Hw, Hid. apply NoDup_cons in Hnd as [Hk_rest Hnd].
    destruct (IH (delete k vv) (ws ++ [w]) Hnd) as (ws' & Hws & Hlogs & Hopened & Hmap).
    { intros k' c' Hin. destruct (Hall k' c') as (Hk' & Hid' & Hw'); [by right|].
      split; [|done]. rewrite lookup_delete_ne; [done|].
      intros <-. apply Hk_rest. by apply (list_elem_of_fmap_2 fst) in Hin. }
    exists (w :: ws'). rewrite Hws, Hlogs, <- (assoc (++)).
    split; [done|]. split; [done|]. split; [by constructor|].
    intros j. rewrite Hmap, lookup_delete.
    repeat case_decide; subst; try done;
      match goal with
      | H : _ ∉ _ :: _ |- _ => apply not_elem_of_cons in H as [? ?]; done
      | H : _ ∈ _ :: _ |- _ => apply elem_of_cons in H as [?|?]; done
      end.
Qed.

(** Over the empty map the loop does nothing, whatever the order. *)
Lemma fanout_empty (order : list (string * Conn)) (ws : list Writer) :
  fanout order ∅ ws = (∅, ws, []).
Proof.
  induction order as [|[k opener] rest IH]; simpl; [done|].
  by rewrite lookup_empty.
Qed.

(** *** One-shot observers *)

(** C2 (counterexample).  Two observers [a] and [b] are parked for the tag
    [T]; no stream can be opened on [a].  A reader for [T] arrives and the
    iteration visits [a] first: the loop stops at [a], and [b] stays in the
    observer set of [T] without having been given a stream. *)
Lemma observer_left_parked_after_reader :
  let a := mkConn "a" (inr (errors_New "connection closed")) in
  let b := mkConn "b" (inl (mkWriter 1 None)) in
  let r := mkReadCloser 0 [] in
  let st := run_inputs init [InObserver (mkTaggedConnection "T" a);
                             InObserver (mkTaggedConnection "T" b)] in
  let order := [("a", a); ("b", b)] in
  reachable st
  /\ observers st !! "T" = Some {[ "a" := a; "b" := b ]}
  /\ feasible st (InReader (mkTaggedReader "T" r) order)
  /\ observers (step st (InReader (mkTaggedReader "T" r) order)).1 !! "T"
     = Some {[ "b" := b ]}
  /\ (step st (InReader (mkTaggedReader "T" r) order)).2
     = [EffLog core.Debug "failed to accept a uniStream"
          (Some (errors_New "connection closed"));
        EffGoCopyWithLog "T" (MultiWriter []) r].
Proof.
  intros a b r st order.
  assert (Hst : observers st !! "T" = Some {[ "a" := a; "b" := b ]}).
  { by vm_compute. }
  split; [|split; [done|split; [|split]]].
  - apply reachable_run_inputs; [constructor|].
    intros pre i post Heq.
    destruct pre as [|? [|? [|? ?]]]; simplify_eq/=; done.
  - unfold feasible. cbn [tr_tag]. rewrite Hst.
    by vm_compute.
  - by vm_compute.
  - by vm_compute.
Qed.

(** C2 (amended).  In every state of the supervisor, when a reader for the
    tag [T] arrives while observers are parked for [T] and a stream can be
    opened on each of them, every one of them is matched, a stream being
    opened on it and made a destination of the copy from the reader, and is
    removed: the observer set of [T] is empty afterwards, and a second reader
    for [T] has no stream opened for it. *)
Theorem observers_one_shot (st : state) (T : string) (r r2 : ReadCloser)
    (order order2 : list (string * Conn)) (vv : gmap string Conn) :
  reachable st ->
  observers st !! T = Some vv ->
  order ≡ₚ map_to_list vv ->
  (forall k c, vv !! k = Some c -> exists w, OpenUniStream c = inl w) ->
  let st' := mkState (<[T := ∅]> (observers st)) (readers st) in
  exists ws,
    step st (InReader (mkTaggedReader T r) order)
      = (st', [EffGoCopyWithLog T (MultiWriter ws) r])
    /\ Forall2 (fun kc w => OpenUniStream kc.2 = inl w) order ws
    /\ observers st' !! T = Some ∅
    /\ step st' (InReader (mkTaggedReader T r2) order2)
       = (st', [EffGoCopyWithLog T (MultiWriter []) r2]).
Proof.
  intros Hreach Hvv Horder Hopen st'.
  destruct (reachable_maps_inv st Hreach) as [_ Hkeys].
  destruct (fanout_all_opened order vv []) as (ws & Hws & Hlogs & Hopened & Hmap).
  { rewrite Horder. apply NoDup_fst_map_to_list. }
  { intros k c Hin. rewrite Horder in Hin. apply elem_of_map_to_list in Hin.
    split; [done|]. split; [by eapply Hkeys|by eapply Hopen]. }
  assert (Hempty : (fanout order vv []).1.1 = ∅).
  { apply map_empty. intros j. rewrite Hmap. case_decide as Hj; [done|].
    destruct (vv !! j) as [c|] eqn:Hc; [|done]. destruct Hj.
    apply (list_elem_of_fmap_2' fst _ (j, c)); [|done].
    rewrite Horder. by apply elem_of_map_to_list. }
  exists ws. split; [|split; [done|split]].
  - simpl. unfold on_reader. cbn [tr_tag tr_r]. rewrite Hvv.
    destruct (fanout order vv []) as [[vv' ws0] logs]. simpl in *. by subst.
  - apply lookup_insert_eq.
  - simpl. unfold on_reader. cbn [tr_tag tr_r]. subst st'. cbn [observers readers].
    rewrite lookup_insert_eq, fanout_empty. by rewrite insert_insert_eq.
Qed.

(** Two observers on which streams open, and two readers in a row. *)
Lemma observers_one_shot_witness :
  let a := mkConn "a" (inl (mkWriter 1 None)) in
  let b := mkConn "b" (inl (mkWriter 2 None)) in
  let st := run_inputs init [InObserver (mkTaggedConnection "T" a);
                             InObserver (mkTaggedConnection "T" b)] in
  let st' := mkState (<[ "T" := ∅ ]> (observers st)) (readers st) in
  exists ws,
    step st (InReader (mkTaggedReader "T" (mkReadCloser 0 [])) [("a", a); ("b", b)])
      = (st', [EffGoCopyWithLog "T" (MultiWriter ws) (mkReadCloser 0 [])])
    /\ Forall2 (fun kc w => OpenUniStream kc.2 = inl w) [("a", a); ("b", b)] ws
    /\ observers st' !! "T" = Some ∅
    /\ step st' (InReader (mkTaggedReader "T" (mkReadCloser 1 [])) [])
       = (st', [EffGoCopyWithLog "T" (MultiWriter []) (mkReadCloser 1 [])]).
Proof.
  intros a b st st'.
  assert (Hst : observers st !! "T" = Some {[ "a" := a; "b" := b ]}).
  { by vm_compute. }
  apply (observers_one_shot st "T" _ _ _ _ {[ "a" := a; "b" := b ]}).
  - apply reachable_run_inputs; [constructor|].
    intros pre i post Heq.
    destruct pre as [|? [|? [|? ?]]]; simplify_eq/=; done.
  - exact Hst.
  - by vm_compute.
  - intros k c. rewrite lookup_insert. case_decide.
    + intros [= <-]. by eexists.
    + intros [_ <-]%lookup_singleton_Some. by eexists.
Defined.

(** *** Parked readers *)

Lemma elem_of_parked (st : state) (tag : string) (r : ReadCloser) :
  r ∈ parked st tag <-> readers st !! tag = Some r.
Proof.
  unfold parked. rewrite list_elem_of_fmap. split.
  - intros ([k r'] & -> & [Hk Hin]%list_elem_of_filter). simpl in *. subst k.
    by apply elem_of_map_to_list.
  - intros Hr. exists (tag, r). split; [done|].
    apply list_elem_of_filter. split; [done|]. by apply elem_of_map_to_list.
Qed.

Lemma parked_at_most_one (st : state) (tag : string) : length (parked st tag) <= 1.
Proof.
  unfold parked.
  pose proof (NoDup_fst_map_to_list (readers st)) as Hnd.
  assert (Hsub : filter (λ kr : string * ReadCloser, kr.1 = tag) (map_to_list (readers st))
                 `sublist_of` map_to_list (readers st)) by apply sublist_filter.
  assert (Hnd' : NoDup (filter (λ kr : string * ReadCloser, kr.1 = tag)
                          (map_to_list (readers st))).*1).
  { eapply sublist_NoDup; [exact Hnd|]. by apply fmap_sublist. }
  assert (Hall : Forall (λ kr : string * ReadCloser, kr.1 = tag)
                   (filter (λ kr : string * ReadCloser, kr.1 = tag)
                      (map_to_list (readers st)))).
  { apply Forall_forall. by intros kr [? _]%list_elem_of_filter. }
  destruct (filter _ (map_to_list (readers st))) as [|[k1 r1] [|[k2 r2] l]];
    simpl; [lia|lia|].
  apply Forall_cons in Hall as [H1 Hall]. apply Forall_cons in Hall as [H2 _].
  simpl in *. subst. apply NoDup_cons in Hnd' as [Hnotin _].
  destruct Hnotin. left.
Qed.

Lemma parked_singleton (st : state) (tag : string) (r : ReadCloser) :
  readers st !! tag = Some r -> parked st tag = [r].
Proof.
  intros Hr. apply elem_of_parked in Hr.
  pose proof (parked_at_most_one st tag) as Hlen.
  destruct (parked st tag) as [|r1 [|r2 l]]; simpl in *.
  - by apply elem_of_nil in Hr.
  - by apply list_elem_of_singleton in Hr as ->.
  - lia.
Qed.

(** A parked reader leaves the map only when its tag arrives on
    [readEOFChan]; no input puts another reader in its place. *)
Lemma parked_reader_stays (st : state) (i : input) (tag : string) (old : ReadCloser) :
  readers st !! tag = Some old ->
  readers (step st i).1 !! tag = Some old
  \/ (i = InReadEOF tag /\ readers (step st i).1 !! tag = None).
Proof.
  intros Hold. destruct i as [o | r order | t]; simpl.
  - left. unfold on_observer.
    destruct (readers st !! tc_tag o); [by destruct (OpenUniStream (tc_conn o))|].
    by destruct (observers st !! tc_tag o).
  - left. unfold on_reader.
    destruct (observers st !! tr_tag r) as [vv|].
    + by destruct (fanout order vv []) as [[??]?].
    + destruct (readers st !! tr_tag r) eqn:Hr; [done|]. simpl.
      rewrite lookup_insert_ne; [done|]. intros <-. by rewrite Hold in Hr.
  - destruct (decide (t = tag)) as [->|Hne].
    + right. split; [done|]. apply lookup_delete_eq.
    + left. by rewrite lookup_delete_ne.
Qed.

(** C3.  In every state of the supervisor a tag has at most one parked
    reader.  When a reader for the tag [T] arrives while no observer is
    parked for [T] (the tag has no observer set, or an empty one) and a
    reader [old] is parked for [T], the supervisor closes the reader that
    arrived, logs the duplicate and changes nothing: the state after the
    turn is the state before it, and [old] is still the parked reader of
    [T]. *)
Theorem parked_reader_kept (st : state) (T : string) (old new : ReadCloser)
    (order : list (string * Conn)) :
  reachable st ->
  observers st !! T = None \/ observers st !! T = Some ∅ ->
  readers st !! T = Some old ->
  (forall tag, length (parked st tag) <= 1)
  /\ step st (InReader (mkTaggedReader T new) order)
     = (st, [EffClose new;
             EffLog core.Warn "duplicate writer, close current writer" None])
  /\ readers (step st (InReader (mkTaggedReader T new) order)).1 = readers st
  /\ parked (step st (InReader (mkTaggedReader T new) order)).1 T = [old].
Proof.
  intros Hreach Hobs Hold.
  destruct (reachable_maps_inv st Hreach) as [Hdisj _].
  assert (Hnone : observers st !! T = None).
  { destruct Hobs as [?|Hobs]; [done|].
    rewrite Hdisj in Hold; [done|]. rewrite Hobs. eauto. }
  assert (Hstep : step st (InReader (mkTaggedReader T new) order)
                  = (st, [EffClose new;
                          EffLog core.Warn "duplicate writer, close current writer" None])).
  { simpl. unfold on_reader. cbn [tr_tag tr_r]. by rewrite Hnone, Hold. }
  split; [intros tag; apply parked_at_most_one|].
  split; [done|]. rewrite Hstep. split; [done|]. by apply parked_singleton.
Qed.

(** A reader is parked for [T], and a second reader for [T] arrives. *)
Lemma parked_reader_kept_witness :
  let old := mkReadCloser 0 [] in
  let new := mkReadCloser 1 [] in
  let st := run_inputs init [InReader (mkTaggedReader "T" old) []] in
  (forall tag, length (parked st tag) <= 1)
  /\ step st (InReader (mkTaggedReader "T" new) [])
     = (st, [EffClose new;
             EffLog core.Warn "duplicate writer, close current writer" None])
  /\ readers (step st (InReader (mkTaggedReader "T" new) [])).1 = readers st
  /\ parked (step st (InReader (mkTaggedReader "T" new) [])).1 "T" = [old].
Proof.
  intros old new st.
  apply (parked_reader_kept st "T" old new []).
  - apply reachable_run_inputs; [constructor|].
    intros pre i post Heq. destruct pre as [|? [|? ?]]; simplify_eq/=; done.
  - left. by vm_compute.
  - by vm_compute.
Defined.

(** *** The end of a copy *)

Lemma io_Copy_EOF_from_dst (dst : Dst) (reads : list (list Z * option error)) :
  io_Copy dst reads = Some io_EOF ->
  exists p, (dst_Write dst p).2 = Some io_EOF.
Proof.
  induction reads as [|[p er] rest IH]; simpl; [done|].
  assert (Hafter : match er with
                   | Some e => if is_io_EOF e then None else Some e
                   | None => io_Copy dst rest
                   end = Some io_EOF -> exists p, (dst_Write dst p).2 = Some io_EOF).
  { destruct er as [e|]; [|done].
    destruct (is_io_EOF e) eqn:He; [done|]. intros [= ->]. by vm_compute in He. }
  destruct (0 <? length p); [|done].
  destruct (dst_Write dst p) as [nw ew] eqn:Hw.
  destruct (length p <? nw).
  - destruct ew as [e|]; simpl; [|done]. intros [= ->]. exists p. by rewrite Hw.
  - destruct ew as [e|].
    + intros [= ->]. exists p. by rewrite Hw.
    + destruct (nw =? length p); [done|]. done.
Qed.

(** A copy whose reads succeed until the end of the stream and whose writes
    all succeed returns nil. *)
Lemma io_Copy_end_of_stream (dst : Dst) (reads : list (list Z * option error)) :
  (forall p, dst_Write dst p = (length p, None)) ->
  Forall (fun read => read.2 = None \/ read.2 = Some io_EOF) reads ->
  io_Copy dst reads = None.
Proof.
  intros Hw. induction 1 as [|[p er] rest Her _ IH]; simpl; [done|].
  rewrite Hw, Nat.ltb_irrefl, Nat.eqb_refl.
  assert (match er with
          | Some e => if is_io_EOF e then None else Some e
          | None => io_Copy dst rest
          end = None) as ->.
  { destruct Her as [Her|Her]; simpl in Her; by subst. }
  by destruct (0 <? length p).
Qed.

(** [copyWithLog] sends on [readEOFChan] exactly when [io.Copy] returned the
    error [io.EOF], and then it sends its tag. *)
Lemma copyWithLog_sends (tag t : string) (dst : Dst) (src : ReadCloser) :
  (copyWithLog tag dst src).1 = Some t <->
  t = tag /\ io_Copy dst (rc_reads src) = Some io_EOF.
Proof.
  unfold copyWithLog. destruct (io_Copy dst (rc_reads src)) as [err|]; simpl.
  - destruct (is_io_EOF err) eqn:He; simpl.
    + apply coreFacts.is_io_EOF_true in He as ->.
      split; [by intros [= <-]|by intros [-> _]].
    + apply coreFacts.is_io_EOF_false in He.
      split; [done|]. intros [_ [= ->]]. by destruct He.
  - split; [done|]. by intros [_ ?].
Qed.

(** What the supervisor's maps become once a copy task has ended: when
    [io.Copy] returned [io.EOF] the parked reader of the tag is removed, and
    in every other case both maps are as they were. *)
Lemma after_copy_maps (st : state) (tag : string) (dst : Dst) (src : ReadCloser) :
  observers (after_copy st tag dst src) = observers st
  /\ readers (after_copy st tag dst src)
     = if bool_decide (io_Copy dst (rc_reads src) = Some io_EOF)
       then delete tag (readers st)
       else readers st.
Proof.
  unfold after_copy.
  destruct ((copyWithLog tag dst src).1) as [t|] eqn:Hsend.
  - apply copyWithLog_sends in Hsend as [-> Hcopy].
    by rewrite bool_decide_eq_true_2.
  - rewrite bool_decide_eq_false_2; [done|].
    intros Hcopy. assert ((copyWithLog tag dst src).1 = Some tag) as Hs.
    { by apply copyWithLog_sends. }
    by rewrite Hs in Hsend.
Qed.

(** C4 (the code at the failing input).  A reader for the tag [T] is parked
    and an observer of [T] arrives, so that a copy from the reader to the
    observer's stream is started.  The reader gives the bytes "hi" and then
    the end of its stream, and the observer's stream takes every byte.  The
    copy returns nil, [copyWithLog] sends nothing on [readEOFChan] and logs
    nothing, and the reader stays in the readers map. *)
Theorem copy_to_end_of_stream_keeps_reader_parked :
  let r := mkReadCloser 0 [([104; 105]%Z, None); ([], Some io_EOF)] in
  let w := mkWriter 1 None in
  let conn := mkConn "c" (inl w) in
  let st := run_inputs init [InReader (mkTaggedReader "T" r) []] in
  readers st !! "T" = Some r
  /\ step st (InObserver (mkTaggedConnection "T" conn))
     = (st, [EffGoCopyWithLog "T" (Single w) r])
  /\ io_Copy (Single w) (rc_reads r) = None
  /\ copyWithLog "T" (Single w) r = (None, [])
  /\ readers (after_copy st "T" (Single w) r) !! "T" = Some r.
Proof. by vm_compute. Qed.

End brokerFacts.

(** ** The serverless context *)
Module serverlessFacts.
Import Go frame serverless.

(** [Context.Write] over any frame writer: nothing for nil data, and for
    non-nil data the single call [c.writer.WriteFrame] of the frame built
    from the tag, the metadata of the incoming frame and the data. *)
Lemma Context_Write_unfold {W : Type} `{FrameWriter W} (tag : Z) (c : Context W) :
  Write tag None c = (c, None)
  /\ forall p,
      Write tag (Some p) c
      = (mkContext
           (WriteFrame (FData (mkDataFrame tag (Metadata (dataFrame c)) (Some p) false))
              (writer c)).1
           (dataFrame c),
         (WriteFrame (FData (mkDataFrame tag (Metadata (dataFrame c)) (Some p) false))
            (writer c)).2).
Proof.
  split; [done|]. intros p. unfold Write.
  by destruct (WriteFrame _ (writer c)).
Qed.

(** C10.  Seen through a writer that records its calls: [Write(tag, nil)]
    returns nil and leaves the context, hence the writer, as it was; and for
    non-nil data (empty or not) [Write(tag, data)] makes the writer record
    exactly one more frame, the DataFrame of the given tag, with the
    metadata of the incoming data frame and the data as payload, and returns
    what the writer answered for that frame. *)
Theorem Context_Write_one_frame (tag : Z) (c : Context recorder) :
  Write tag None c = (c, None)
  /\ forall p,
      let f := FData (mkDataFrame tag (Metadata (dataFrame c)) (Some p) false) in
      rec_written (writer (Write tag (Some p) c).1) = rec_written (writer c) ++ [f]
      /\ (Write tag (Some p) c).2 = rec_answer (writer c) f
      /\ dataFrame (Write tag (Some p) c).1 = dataFrame c.
Proof. split; [done|]. by intros p. Qed.

End serverlessFacts.

(** ** The reference TLV library keeps the contract *)
Module y3refFacts.
Import Go y3 y3ref.
Local Open Scope Z_scope.

Lemma int32_range (x : Z) : - 2 ^ 31 <= int32 x < 2 ^ 31.
Proof.
  unfold int32. pose proof (Z.mod_pos_bound (x + 2 ^ 31) (2 ^ 32)). lia.
Qed.

Lemma int32_id (x : Z) : - 2 ^ 31 <= x < 2 ^ 31 -> int32 x = x.
Proof. intros Hx. unfold int32. rewrite Z.mod_small; lia. Qed.

Lemma int64_id (x : Z) : - 2 ^ 63 <= x < 2 ^ 63 -> int64 x = x.
Proof. intros Hx. unfold int64. rewrite Z.mod_small; lia. Qed.

(** [uint(x)] of an [int32] is below [2^31] or among the top [2^31] values
    of a 64-bit word. *)
Lemma uint_of_int32_range (x : Z) :
  0 <= uint_of_int32 x < 2 ^ 31 \/ 2 ^ 64 - 2 ^ 31 <= uint_of_int32 x < 2 ^ 64.
Proof.
  unfold uint_of_int32. pose proof (int32_range x) as Hx.
  destruct (decide (0 <= int32 x)).
  - left. rewrite Z.mod_small; lia.
  - right. replace (int32 x) with ((int32 x + 2 ^ 64) + (-1) * 2 ^ 64) by lia.
    rewrite Z.mod_add by lia. rewrite Z.mod_small; lia.
Qed.

Lemma uint_of_int32_id (x : Z) : 0 <= x < 2 ^ 31 -> uint_of_int32 x = x.
Proof.
  intros Hx. unfold uint_of_int32. rewrite int32_id by lia.
  rewrite Z.mod_small; lia.
Qed.

(** *** Integers in groups of seven bits *)

Lemma decode_groups_bytes (k : nat) :
  forall acc v rest,
    decode_groups acc (pvarint_bytes (S k) v ++ rest)
    = Some (acc * 128 ^ Z.of_nat (S k) + v `mod` 128 ^ Z.of_nat (S k), rest).
Proof.
  induction k as [|k IH]; intros acc v rest.
  - simpl pvarint_bytes. cbn [app decode_groups].
    change (128 ^ Z.of_nat 0) with 1. rewrite Z.div_1_r, Z.add_0_l.
    rewrite Z.mod_mod by lia.
    pose proof (Z.mod_pos_bound v 128 ltac:(lia)) as Hb.
    change (128 ^ Z.of_nat 1) with 128.
    generalize dependent (v `mod` 128). intros g Hg.
    by rewrite (proj2 (Z.ltb_lt g 128)) by lia.
  - change (pvarint_bytes (S (S k)) v)
      with ((128 + (v `div` 128 ^ Z.of_nat (S k)) `mod` 128) :: pvarint_bytes (S k) v).
    cbn [app decode_groups].
    assert (Hpow : 128 ^ Z.of_nat (S (S k)) = 128 ^ Z.of_nat (S k) * 128).
    { rewrite (Nat2Z.inj_succ (S k)), Z.pow_succ_r by lia. lia. }
    assert (Hpos : 0 < 128 ^ Z.of_nat (S k)) by (apply Z.pow_pos_nonneg; lia).
    rewrite Hpow, (Z.rem_mul_r v (128 ^ Z.of_nat (S k)) 128) by lia.
    pose proof (Z.mod_pos_bound (v `div` 128 ^ Z.of_nat (S k)) 128 ltac:(lia)) as Hb.
    generalize dependent ((v `div` 128 ^ Z.of_nat (S k)) `mod` 128). intros g Hg.
    rewrite (proj2 (Z.ltb_ge (128 + g) 128)) by lia.
    replace ((128 + g) `mod` 128) with g.
    2:{ rewrite <- (Z.mod_small g 128) at 1 by lia.
        rewrite <- (Z.mod_add g 1 128) by lia. f_equal. lia. }
    rewrite IH. f_equal. f_equal. lia.
Qed.

Lemma fits_spec (size : nat) (v : Z) :
  fits size v = true <->
  - 2 ^ (7 * Z.of_nat size - 1) <= v < 2 ^ (7 * Z.of_nat size - 1).
Proof. unfold fits. rewrite andb_true_iff, Z.leb_le, Z.ltb_lt. done. Qed.

Lemma decodePVarInt_bytes (k : nat) (v : Z) (rest : list Z) :
  fits (S k) v = true ->
  decodePVarInt (pvarint_bytes (S k) v ++ rest) = Some (v, rest).
Proof.
  intros Hfits%fits_spec.
  unfold decodePVarInt.
  pose proof (decode_groups_bytes k) as Hdec.
  change (pvarint_bytes (S k) v)
    with (((if k is O then 0 else 128) + (v `div` 128 ^ Z.of_nat k) `mod` 128)
            :: pvarint_bytes k v) at 1.
  cbn [app].
  change (((if k is O then 0 else 128) + (v `div` 128 ^ Z.of_nat k) `mod` 128)
            :: pvarint_bytes k v ++ rest)
    with (pvarint_bytes (S k) v ++ rest).
  rewrite Hdec.
  assert (Hfirst : ((if k is O then 0 else 128) + (v `div` 128 ^ Z.of_nat k) `mod` 128) `mod` 128
                   = (v `div` 128 ^ Z.of_nat k) `mod` 128).
  { destruct k; [by rewrite Z.add_0_l, Z.mod_mod by lia|].
    generalize (v `div` 128 ^ Z.of_nat (S k)). intros q.
    replace (128 + q `mod` 128) with (q `mod` 128 + 1 * 128) by ring.
    by rewrite Z.mod_add, Z.mod_mod by lia. }
  rewrite Hfirst.
  assert (Hpk : 0 < 128 ^ Z.of_nat k) by (apply Z.pow_pos_nonneg; lia).
  assert (Hpow : 128 ^ Z.of_nat (S k) = 128 ^ Z.of_nat k * 128).
  { rewrite Nat2Z.inj_succ, Z.pow_succ_r by lia. lia. }
  assert (Hhalf : 2 ^ (7 * Z.of_nat (S k) - 1) = 64 * 128 ^ Z.of_nat k).
  { replace (7 * Z.of_nat (S k) - 1) with (6 + 7 * Z.of_nat k) by lia.
    rewrite Z.pow_add_r by lia. rewrite Z.pow_mul_r by lia. done. }
  rewrite Hhalf in Hfits. rewrite Hpow.
  set (p := 128 ^ Z.of_nat k) in *.
  destruct (decide (0 <= v)) as [Hv|Hv].
  - assert (Hq : 0 <= v `div` p < 64).
    { split; [apply Z.div_pos; lia|]. apply Z.div_lt_upper_bound; lia. }
    rewrite (Z.mod_small (v `div` p) 128) by lia.
    rewrite (proj2 (Z.leb_gt 64 (v `div` p))) by lia.
    rewrite (Z.mod_small v (p * 128)) by lia. done.
  - assert (Hq : -64 <= v `div` p < 0).
    { split; [apply Z.div_le_lower_bound; lia|]. apply Z.div_lt_upper_bound; lia. }
    replace ((v `div` p) `mod` 128) with (v `div` p + 128).
    2:{ rewrite <- (Z.mod_add _ 1 128) by lia. rewrite Z.mod_small; lia. }
    rewrite (proj2 (Z.leb_le 64 (v `div` p + 128))) by lia.
    replace (v `mod` (p * 128)) with (v + p * 128).
    2:{ rewrite <- (Z.mod_add v 1 (p * 128)) by lia. rewrite Z.mod_small; lia. }
    f_equal. f_equal. lia.
Qed.

Lemma length_pvarint_bytes (size : nat) (v : Z) : length (pvarint_bytes size v) = size.
Proof. induction size as [|k IH]; simpl; [done|]. by rewrite IH. Qed.

Lemma size_search_fits (v : Z) (fuel : nat) :
  forall size, fits (size + fuel) v = true -> fits (size_search fuel size v) v = true.
Proof.
  induction fuel as [|fuel IH]; intros size Hfit; simpl.
  - by rewrite Nat.add_0_r in Hfit.
  - destruct (fits size v) eqn:Hs; [done|]. apply IH.
    by replace (S size + fuel)%nat with (size + S fuel)%nat by lia.
Qed.

Lemma size_search_ge (v : Z) (fuel : nat) :
  forall size, (size <= size_search fuel size v)%nat.
Proof.
  induction fuel as [|fuel IH]; intros size; simpl; [done|].
  destruct (fits size v); [done|]. specialize (IH (S size)). lia.
Qed.

Lemma size_search_le (v : Z) (n : nat) (fuel : nat) :
  forall size, fits n v = true -> (size <= n)%nat -> (size_search fuel size v <= n)%nat.
Proof.
  induction fuel as [|fuel IH]; intros size Hfit Hle; simpl; [done|].
  destruct (fits size v) eqn:Hs; [done|]. apply IH; [done|].
  destruct (decide (size = n)) as [->|]; [congruence|lia].
Qed.

Lemma fits_10 (v : Z) : - 2 ^ 63 <= v < 2 ^ 63 -> fits 10 v = true.
Proof. intros Hv. apply fits_spec. simpl. lia. Qed.

Lemma fits_5 (v : Z) : - 2 ^ 31 <= v < 2 ^ 31 -> fits 5 v = true.
Proof. intros Hv. apply fits_spec. simpl. lia. Qed.

Lemma decode_encodePVarInt (v : Z) (rest : list Z) :
  - 2 ^ 63 <= v < 2 ^ 63 ->
  decodePVarInt (encodePVarInt v ++ rest) = Some (v, rest).
Proof.
  intros Hv. unfold encodePVarInt, sizeOfPVarInt.
  pose proof (size_search_fits v 9 1 (fits_10 v Hv)) as Hfit.
  pose proof (size_search_ge v 9 1) as Hge.
  destruct (size_search 9 1 v) as [|k]; [lia|].
  by apply decodePVarInt_bytes.
Qed.

Lemma length_encodePVarInt (v : Z) (n : nat) :
  fits n v = true -> (1 <= n)%nat -> (length (encodePVarInt v) <= n)%nat.
Proof.
  intros Hfit Hn. unfold encodePVarInt. rewrite length_pvarint_bytes.
  by apply size_search_le.
Qed.


(** *** Strings *)

Lemma string_of_bytes_of_string (s : string) : string_of_bytes (bytes_of_string s) = s.
Proof.
  unfold string_of_bytes, bytes_of_string.
  rewrite <- list_fmap_compose.
  rewrite <- (String.string_of_list_ascii_of_string s) at 2. f_equal.
  rewrite <- (list_fmap_id (String.list_ascii_of_string s)) at 2.
  apply list_fmap_ext. intros _ a _. simpl.
  by rewrite N2Z.id, Ascii.ascii_N_embedding.
Qed.

Lemma length_bytes_of_string (s : string) :
  length (bytes_of_string s) = String.length s.
Proof.
  unfold bytes_of_string. rewrite length_fmap.
  induction s as [|a s IH]; simpl; [done|]. by rewrite IH.
Qed.

(** *** Packets *)

Lemma decode_packet_encode (tag : Z) (val rest : list Z) :
  Z.of_nat (length val) < 2 ^ 63 ->
  decode_packet (encode_packet tag val ++ rest) = Some (tag, val, rest).
Proof.
  intros Hlen. unfold encode_packet, decode_packet. cbn [app].
  rewrite <- (assoc (++)), decode_encodePVarInt by lia.
  rewrite length_app, Nat2Z.id.
  rewrite (proj2 (Z.leb_le 0 _)) by lia.
  rewrite (proj2 (Z.leb_le _ _)) by lia. cbn [andb].
  by rewrite take_app_length, drop_app_length.
Qed.

Lemma length_encode_packet (tag : Z) (val : list Z) :
  Z.of_nat (length val) < 2 ^ 63 ->
  (length (encode_packet tag val) <= length val + 11)%nat.
Proof.
  intros Hlen. unfold encode_packet. cbn [length]. rewrite length_app.
  assert (Hfit : fits 10 (Z.of_nat (length val)) = true) by (apply fits_10; lia).
  pose proof (length_encodePVarInt (Z.of_nat (length val)) 10 Hfit ltac:(lia)).
  lia.
Qed.

Lemma payload_size_cons (p : Z * list Z) (ps : list (Z * list Z)) :
  payload_size (p :: ps) = Z.of_nat (length p.2) + 6 + payload_size ps.
Proof. done. Qed.

Lemma payload_size_nonneg (ps : list (Z * list Z)) : 0 <= payload_size ps.
Proof. induction ps as [|p ps IH]; [done|]. rewrite payload_size_cons. lia. Qed.

Lemma length_encode_primitives (ps : list (Z * list Z)) :
  payload_size ps < 2 ^ 62 ->
  Z.of_nat (length (encode_primitives ps)) <= 2 * payload_size ps.
Proof.
  unfold encode_primitives.
  induction ps as [|p ps IH]; [simpl; lia|].
  rewrite payload_size_cons. intros Hsize. cbn [map concat].
  pose proof (payload_size_nonneg ps).
  rewrite length_app.
  pose proof (length_encode_packet (p.1 `mod` 64) p.2 ltac:(lia)).
  specialize (IH ltac:(lia)). lia.
Qed.

Lemma decode_children_primitives (ps : list (Z * list Z)) :
  forall fuel m,
    Forall (fun p => 0 <= p.1 <= 63) ps ->
    payload_size ps < 2 ^ 62 ->
    (length ps <= fuel)%nat ->
    decode_children fuel (encode_primitives ps) m
    = Some (foldl (fun m p => <[p.1 := p.2]> m) m ps).
Proof.
  unfold encode_primitives.
  induction ps as [|p ps IH]; intros fuel m Htags Hsize Hfuel.
  - by destruct fuel.
  - apply Forall_cons in Htags as [Htag Htags].
    rewrite payload_size_cons in Hsize. cbn [length] in Hfuel.
    pose proof (payload_size_nonneg ps).
    destruct fuel as [|fuel]; [lia|].
    cbn [map concat]. unfold encode_packet at 1. cbn [app decode_children].
    change ((p.1 `mod` 64) :: (encodePVarInt (Z.of_nat (length p.2)) ++ p.2)
              ++ concat (map (fun p => encode_packet (p.1 `mod` 64) p.2) ps))
      with (encode_packet (p.1 `mod` 64) p.2
              ++ concat (map (fun p => encode_packet (p.1 `mod` 64) p.2) ps)).
    rewrite decode_packet_encode by lia.
    rewrite (Z.mod_small p.1 64) by lia.
    rewrite (proj2 (Z.ltb_lt p.1 128)) by lia.
    rewrite (Z.mod_small p.1 64) by lia.
    rewrite IH; [done|done|lia|lia].
Qed.

Lemma foldl_insert_list_to_map (ps : list (Z * list Z)) :
  forall m : gmap Z (list Z),
    NoDup ps.*1 ->
    foldl (fun m p => <[p.1 := p.2]> m) m ps = list_to_map ps ∪ m.
Proof.
  induction ps as [|[k v] ps IH]; intros m Hnd; simpl.
  - by rewrite (left_id_L ∅ (∪)).
  - apply NoDup_cons in Hnd as [Hk Hnd]. rewrite IH by done.
    rewrite <- insert_union_r; [|by apply not_elem_of_list_to_map_1].
    by rewrite insert_union_l.
Qed.

Lemma length_encode_primitives_ge (ps : list (Z * list Z)) :
  (length ps <= length (encode_primitives ps))%nat.
Proof.
  unfold encode_primitives. induction ps as [|p ps IH]; [done|].
  cbn [map concat]. rewrite length_app. unfold encode_packet at 1.
  cbn [length]. lia.
Qed.

Lemma Decode_Encode (t : Z) (ps : list (Z * list Z)) :
  Forall (fun p => 0 <= p.1 <= 63) ps ->
  NoDup ps.*1 ->
  payload_size ps < 2 ^ 31 ->
  @DecodeToNodePacket lib (@Encode lib t ps) = inr (list_to_map ps).
Proof.
  intros Htags Hnd Hsize. cbn [DecodeToNodePacket Encode lib].
  pose proof (length_encode_primitives ps ltac:(lia)) as Hlen.
  rewrite <- (app_nil_r (encode_packet _ _)), decode_packet_encode by lia.
  rewrite decode_children_primitives; [|done|lia|].
  - rewrite foldl_insert_list_to_map by done. by rewrite (right_id_L ∅ (∪)).
  - apply length_encode_primitives_ge.
Qed.

(** The reference library keeps the contract of [LibLaws]. *)
Lemma lib_laws : LibLaws lib.
Proof.
  split; cbn [SetStringValue SetInt64Value SetUInt32Value ToUTF8String ToInt64
              ToInt32 lib].
  - intros s. by rewrite string_of_bytes_of_string.
  - apply length_bytes_of_string.
  - intros v Hv. unfold read_int.
    rewrite <- (app_nil_r (encodePVarInt v)), decode_encodePVarInt by done.
    by rewrite int64_id.
  - intros v Hv. apply length_encodePVarInt; [by apply fits_10|lia].
  - intros v Hv. unfold read_int. rewrite (int32_id v) by lia.
    rewrite <- (app_nil_r (encodePVarInt v)), decode_encodePVarInt by lia.
    by rewrite int32_id by lia.
  - intros v Hv. apply length_encodePVarInt; [|lia].
    apply fits_5, int32_range.
  - intros t ps _. apply Decode_Encode.
Qed.

End y3refFacts.

(** ** The StreamFrame codec *)
Module y3codecFacts.
Import Go frame y3 y3codec y3refFacts.
Local Open Scope Z_scope.

Section Codec.
Context {L : Lib}.
Variable TypeStreamFrame : Z.

(** The encoder reads [ChunkSize] through [uint32(...)] only. *)
Lemma encodeStreamFrame_truncates (id : string) (streamID chunkSize : Z) :
  encodeStreamFrame TypeStreamFrame (mkStreamFrame id streamID chunkSize)
  = encodeStreamFrame TypeStreamFrame
      (mkStreamFrame id streamID (uint32_of_uint chunkSize)).
Proof.
  unfold encodeStreamFrame, uint32_of_uint. cbn [ID StreamID ChunkSize].
  by rewrite Z.mod_mod by lia.
Qed.

Lemma decode_field_ChunkSize {A : Type} (node : gmap Z (list Z)) (tag : Z)
    (conv : list Z -> error + A) (set : A -> StreamFrame -> StreamFrame)
    (st : StreamFrame * option error) :
  (forall v f, ChunkSize (set v f) = ChunkSize f) ->
  ChunkSize (decode_field node tag conv set st).1 = ChunkSize st.1.
Proof.
  intros Hset. unfold decode_field. destruct st as [f [err|]]; [done|].
  destruct (node !! tag) as [p|]; [|done]. destruct (conv p); [done|]. apply Hset.
Qed.

(** The [ChunkSize] a decoding leaves in the frame is the one that was
    there or the [uint] of an [int32]. *)
Lemma decodeStreamFrame_ChunkSize (data : list Z) (f : StreamFrame) :
  ChunkSize (decodeStreamFrame data f).1 = ChunkSize f
  \/ exists x, ChunkSize (decodeStreamFrame data f).1 = uint_of_int32 x.
Proof.
  unfold decodeStreamFrame. destruct (DecodeToNodePacket data) as [err|node]; [by left|].
  set (inner := decode_field node tagStreamID _ _ _).
  assert (Hinner : ChunkSize inner.1 = ChunkSize f).
  { unfold inner. rewrite decode_field_ChunkSize by done.
    by rewrite decode_field_ChunkSize by done. }
  unfold decode_field at 1. clearbody inner.
  destruct inner as [g [err|]]; simpl in *; [by left|].
  destruct (node !! tagStreamChunkSize) as [p|]; [|by left].
  destruct (ToInt32 p) as [err|x]; simpl; [by left|]. right. by exists x.
Qed.

(** C7 (the code at the failing input).  Whatever the TLV library does, the
    StreamFrame whose [ChunkSize] is [2^31] does not survive the round trip
    through [encodeStreamFrame] and [decodeStreamFrame] into a fresh frame:
    the decoder reads the chunk size as an [int32] and converts it with
    [uint(...)], which never gives [2^31]. *)
Theorem StreamFrame_ChunkSize_2_31_not_restored :
  decodeStreamFrame
    (encodeStreamFrame TypeStreamFrame (mkStreamFrame "" 0 2147483648))
    zeroStreamFrame
  <> (mkStreamFrame "" 0 2147483648, None).
Proof.
  intros Heq.
  destruct (decodeStreamFrame_ChunkSize
              (encodeStreamFrame TypeStreamFrame (mkStreamFrame "" 0 2147483648))
              zeroStreamFrame) as [Hc|[x Hc]];
    rewrite Heq in Hc; simpl in Hc; [done|].
  pose proof (uint_of_int32_range x). lia.
Qed.

(** Nor does a [ChunkSize] of [2^32] or more: the frame is encoded as the
    frame whose [ChunkSize] is the low 32 bits, so both decode alike. *)
Lemma StreamFrame_ChunkSize_2_32_encoded_as_0 :
  encodeStreamFrame TypeStreamFrame (mkStreamFrame "" 0 4294967296)
  = encodeStreamFrame TypeStreamFrame (mkStreamFrame "" 0 0).
Proof. by rewrite encodeStreamFrame_truncates. Qed.

(** With a library that keeps its contract, a StreamFrame whose [ID] fits
    its packet, whose [StreamID] is an [int64] and whose [ChunkSize] is below
    [2^31] is restored exactly, into whatever frame it is decoded. *)
Lemma StreamFrame_round_trip (f f0 : StreamFrame) :
  LibLaws L ->
  0 <= TypeStreamFrame <= 63 ->
  Z.of_nat (String.length (ID f)) + 33 < 2 ^ 31 ->
  - 2 ^ 63 <= StreamID f < 2 ^ 63 ->
  0 <= ChunkSize f < 2 ^ 31 ->
  decodeStreamFrame (encodeStreamFrame TypeStreamFrame f) f0 = (f, None).
Proof.
  intros Hlaws Hty Hid Hsid Hcs. unfold decodeStreamFrame, encodeStreamFrame.
  assert (Hu32 : uint32_of_uint (ChunkSize f) = ChunkSize f).
  { unfold uint32_of_uint. rewrite Z.mod_small; lia. }
  rewrite Hu32, (node_packets L Hlaws).
  - unfold decode_field. cbn [list_to_map foldr uncurry fst snd].
    unfold tagStreamClientID, tagStreamID, tagStreamChunkSize.
    rewrite (lookup_insert_eq _ 1).
    rewrite (string_value L Hlaws).
    rewrite (lookup_insert_ne _ 1 2) by done. rewrite (lookup_insert_eq _ 2).
    rewrite (int64_value L Hlaws) by done.
    rewrite (lookup_insert_ne _ 1 3) by done.
    rewrite (lookup_insert_ne _ 2 3) by done. rewrite (lookup_insert_eq _ 3).
    rewrite (uint32_value_as_int32 L Hlaws) by done.
    rewrite uint_of_int32_id by done. by destruct f.
  - done.
  - repeat constructor; unfold tagStreamClientID, tagStreamID, tagStreamChunkSize;
      simpl; lia.
  - unfold tagStreamClientID, tagStreamID, tagStreamChunkSize. cbn [fmap list_fmap fst].
    by apply (bool_decide_unpack _).
  - unfold payload_size. cbn [foldr snd].
    pose proof (string_length L Hlaws (ID f)) as H1.
    pose proof (int64_length L Hlaws (StreamID f) Hsid) as H2.
    pose proof (uint32_length L Hlaws (ChunkSize f) ltac:(lia)) as H3.
    lia.
Qed.

End Codec.

(** *** The codec over the reference library *)

(** A frame like the one [Pipe] sends in [source.go], with a chunk size of
    1024 bytes, is restored by the round trip (the type byte is taken to be
    47 here; any sequence number will do). *)
Lemma StreamFrame_round_trip_witness :
  @decodeStreamFrame y3ref.lib
    (@encodeStreamFrame y3ref.lib 47 (mkStreamFrame "stream-1" 12 1024))
    zeroStreamFrame
  = (mkStreamFrame "stream-1" 12 1024, None).
Proof.
  apply (@StreamFrame_round_trip y3ref.lib 47 (mkStreamFrame "stream-1" 12 1024)
           zeroStreamFrame lib_laws); cbn [ID StreamID ChunkSize]; done.
Defined.

(** What the decoder makes of a chunk size of [2^31], over the reference
    library: the sign-extended value [2^64 - 2^31]. *)
Lemma StreamFrame_ChunkSize_2_31_decoded :
  @decodeStreamFrame y3ref.lib
    (@encodeStreamFrame y3ref.lib 47 (mkStreamFrame "" 0 2147483648))
    zeroStreamFrame
  = (mkStreamFrame "" 0 18446744071562067968, None).
Proof. by vm_compute. Qed.

End y3codecFacts.

(** ** More on the broker: what its supervisor keeps and never does *)
Module brokerRunFacts.
Import Go io broker brokerFacts.

(** In every state of the supervisor, no tag has both an entry in
    [observers] and a parked reader, and every observer is stored under the
    [ID()] of its connection, so that a connection is parked at most once
    per tag. *)
Theorem observers_and_readers_apart (st : state) (tag : string) :
  reachable st ->
  ~ (is_Some (observers st !! tag) /\ is_Some (readers st !! tag))
  /\ forall vv k c, observers st !! tag = Some vv -> vv !! k = Some c -> ID c = k.
Proof.
  intros [Hdisj Hkeys]%reachable_maps_inv. split.
  - intros [Hobs [r Hr]]. by rewrite (Hdisj tag Hobs) in Hr.
  - intros vv k c Hvv. by apply (Hkeys tag vv).
Qed.

(** An observer parked for a tag that a reader of the same tag then finds. *)
Lemma observers_and_readers_apart_witness :
  let a := mkConn "a" (inl (mkWriter 1 None)) in
  let st := run_inputs init [InObserver (mkTaggedConnection "T" a);
                             InReader (mkTaggedReader "U" (mkReadCloser 0 [])) []] in
  ~ (is_Some (observers st !! "T") /\ is_Some (readers st !! "T"))
  /\ forall vv k c, observers st !! "T" = Some vv -> vv !! k = Some c -> ID c = k.
Proof.
  intros a st. apply (observers_and_readers_apart st "T").
  apply reachable_run_inputs; [constructor|].
  intros pre i post Heq.
  destruct pre as [|? [|? [|? ?]]]; simplify_eq/=; done.
Defined.





(** A parked reader stays parked until its tag arrives on [readEOFChan]:
    through any inputs without that tag it is still the reader of its tag,
    and every observer of the tag that arrives meanwhile and on which a
    stream opens is given a copy task from that same reader, without being
    parked and without the reader leaving the map. *)
Theorem parked_reader_serves_every_observer (st : state) (tag : string)
    (r : ReadCloser) (inputs : list input) :
  readers st !! tag = Some r ->
  InReadEOF tag ∉ inputs ->
  readers (run_inputs st inputs) !! tag = Some r
  /\ forall conn w,
       OpenUniStream conn = inl w ->
       step (run_inputs st inputs) (InObserver (mkTaggedConnection tag conn))
       = (run_inputs st inputs, [EffGoCopyWithLog tag (Single w) r]).
Proof.
  intros Hr Hnoeof.
  assert (Hrun : readers (run_inputs st inputs) !! tag = Some r).
  { revert st Hr. induction inputs as [|i inputs IH]; intros st Hr; [done|].
    apply not_elem_of_cons in Hnoeof as [Hi Hnoeof]. simpl. apply IH; [done|].
    destruct (parked_reader_stays st i tag r Hr) as [?|[-> _]]; done. }
  split; [done|]. intros conn w Hw. simpl. unfold on_observer.
  cbn [tc_tag tc_conn]. by rewrite Hrun, Hw.
Qed.

(** A reader parked for [T], an observer of another tag, and then two
    observers of [T]. *)
Lemma parked_reader_serves_every_observer_witness :
  let r := mkReadCloser 0 [] in
  let st := run_inputs init [InReader (mkTaggedReader "T" r) []] in
  let inputs := [InObserver (mkTaggedConnection "U" (mkConn "u" (inl (mkWriter 1 None))));
                 InObserver (mkTaggedConnection "T" (mkConn "a" (inl (mkWriter 2 None))))] in
  readers (run_inputs st inputs) !! "T" = Some r
  /\ forall conn w,
       OpenUniStream conn = inl w ->
       step (run_inputs st inputs) (InObserver (mkTaggedConnection "T" conn))
       = (run_inputs st inputs, [EffGoCopyWithLog "T" (Single w) r]).
Proof.
  intros r st inputs.
  apply (parked_reader_serves_every_observer st "T" r inputs).
  - by vm_compute.
  - intros Hin. repeat (apply elem_of_cons in Hin as [Hin|Hin]; [done|]).
    by apply elem_of_nil in Hin.
Defined.

(** *** The loop over the observers when a stream does not open *)

Lemma fanout_stops_at_failure (pre : list (string * Conn)) :
  forall vv ws k bad post err,
    NoDup (pre ++ (k, bad) :: post).*1 ->
    (forall k' c', (k', c') ∈ pre ++ [(k, bad)] -> vv !! k' = Some c' /\ ID c' = k') ->
    (forall k' c', (k', c') ∈ pre -> exists w, OpenUniStream c' = inl w) ->
    OpenUniStream bad = inr err ->
    exists ws',
      fanout (pre ++ (k, bad) :: post) vv ws
      = ((fanout (pre ++ (k, bad) :: post) vv ws).1.1, ws ++ ws',
         [EffLog core.Debug "failed to accept a uniStream" (Some err)])
      /\ Forall2 (fun kc w => OpenUniStream kc.2 = inl w) pre ws'
      /\ forall j, (fanout (pre ++ (k, bad) :: post) vv ws).1.1 !! j
                   = if decide (j ∈ (pre ++ [(k, bad)]).*1) then None else vv !! j.
Proof.
  induction pre as [|[k0 c0] pre IH]; intros vv ws k bad post err Hnd Hall Hopen Hbad.
  - cbn [app fanout]. destruct (Hall k bad) as [Hk Hid]; [by left|].
    rewrite Hk, Hbad, Hid. exists []. rewrite app_nil_r.
    split; [done|]. split; [constructor|]. intros j. cbn [fst snd fmap list_fmap].
    rewrite lookup_delete.
    repeat case_decide; subst; try done;
      match goal with
      | H : _ ∉ [_] |- _ => apply not_elem_of_cons in H as [? ?]; done
      | H : _ ∈ [_] |- _ => apply list_elem_of_singleton in H; done
      end.
  - cbn [app fanout]. destruct (Hall k0 c0) as [Hk0 Hid0]; [by left|].
    destruct (Hopen k0 c0) as [w Hw]; [by left|].
    rewrite Hk0, Hw, Hid0.
    cbn [app fmap list_fmap fst] in Hnd. apply NoDup_cons in Hnd as [Hk0_rest Hnd].
    destruct (IH (delete k0 vv) (ws ++ [w]) k bad post err Hnd) as (ws' & Heq & Hopened & Hmap).
    { intros k' c' Hin. destruct (Hall k' c') as [Hk' Hid']; [by right|]. split; [|done].
      rewrite lookup_delete_ne; [done|]. intros <-. apply Hk0_rest.
      rewrite fmap_app. apply elem_of_app.
      apply elem_of_app in Hin as [Hin|Hin%list_elem_of_singleton].
      - left. by apply (list_elem_of_fmap_2 fst) in Hin.
      - right. simplify_eq. left. }
    { intros k' c' Hin. apply (Hopen k' c'). by right. }
    { done. }
    exists (w :: ws'). rewrite Heq at 1. rewrite <- (assoc (++)).
    split; [done|]. split; [by constructor|].
    intros j. rewrite Hmap, lookup_delete. cbn [app fmap list_fmap fst].
    repeat case_decide; subst; try done;
      match goal with
      | H : _ ∉ _ :: _ |- _ => apply not_elem_of_cons in H as [? ?]; done
      | H : _ ∈ _ :: _ |- _ => apply elem_of_cons in H as [?|?]; done
      end.
Qed.

(** When a reader arrives and, in the order of the iteration, a stream opens
    on the observers [pre] but not on the observer [bad] that comes next, the
    loop ends there: the copy task gets the streams opened on [pre] and no
    other, [pre] and [bad] are removed from the observer set, and the
    observers [post] that the iteration had not reached stay parked, without
    a stream, for a later reader. *)
Theorem reader_fanout_stops_at_failed_open (st : state) (T : string)
    (r : ReadCloser) (pre post : list (string * Conn)) (k : string) (bad : Conn)
    (vv : gmap string Conn) (err : error) :
  reachable st ->
  observers st !! T = Some vv ->
  pre ++ (k, bad) :: post ≡ₚ map_to_list vv ->
  (forall k' c', (k', c') ∈ pre -> exists w, OpenUniStream c' = inl w) ->
  OpenUniStream bad = inr err ->
  exists ws,
    step st (InReader (mkTaggedReader T r) (pre ++ (k, bad) :: post))
    = (mkState (<[T := list_to_map post]> (observers st)) (readers st),
       [EffLog core.Debug "failed to accept a uniStream" (Some err);
        EffGoCopyWithLog T (MultiWriter ws) r])
    /\ Forall2 (fun kc w => OpenUniStream kc.2 = inl w) pre ws.
Proof.
  intros Hreach Hvv Horder Hopen Hbad.
  destruct (reachable_maps_inv st Hreach) as [_ Hkeys].
  assert (Hnd : NoDup (pre ++ (k, bad) :: post).*1).
  { rewrite Horder. apply NoDup_fst_map_to_list. }
  assert (Hin_vv : forall k' c', (k', c') ∈ pre ++ (k, bad) :: post <-> vv !! k' = Some c').
  { intros k' c'. rewrite Horder. apply elem_of_map_to_list. }
  destruct (fanout_stops_at_failure pre vv [] k bad post err Hnd) as (ws & Heq & Hopened & Hmap);
    [|done|done|].
  { intros k' c' Hin. assert (Hk' : vv !! k' = Some c').
    { apply Hin_vv. apply elem_of_app in Hin as [Hin|Hin%list_elem_of_singleton].
      - apply elem_of_app. by left.
      - apply elem_of_app. right. simplify_eq. left. }
    split; [done|]. by eapply Hkeys. }
  assert (Hleft : (fanout (pre ++ (k, bad) :: post) vv []).1.1 = list_to_map post).
  { assert (Hnd_post : NoDup post.*1).
    { rewrite fmap_app, fmap_cons in Hnd.
      apply NoDup_app in Hnd as (_ & _ & Hnd). by apply NoDup_cons in Hnd as [_ ?]. }
    assert (Hsplit : (pre ++ (k, bad) :: post).*1 = (pre ++ [(k, bad)]).*1 ++ post.*1).
    { by rewrite <- fmap_app, <- (assoc (++)). }
    rewrite Hsplit in Hnd. apply NoDup_app in Hnd as (_ & Hapart & _).
    apply map_eq. intros j. rewrite Hmap. case_decide as Hj.
    - symmetry. apply not_elem_of_list_to_map_1. by apply Hapart.
    - destruct (vv !! j) as [c|] eqn:Hc.
      + symmetry. apply elem_of_list_to_map_1; [done|].
        apply Hin_vv in Hc.
        replace (pre ++ (k, bad) :: post) with ((pre ++ [(k, bad)]) ++ post) in Hc
          by by rewrite <- (assoc (++)).
        apply elem_of_app in Hc as [Hc|Hc]; [|done].
        destruct Hj. by apply (list_elem_of_fmap_2 fst) in Hc.
      + destruct (list_to_map post !! j) as [c|] eqn:Hc'; [|done].
        apply elem_of_list_to_map_2 in Hc'.
        assert ((j, c) ∈ pre ++ (k, bad) :: post) as Hin.
        { apply elem_of_app. right. by right. }
        apply Hin_vv in Hin. congruence. }
  exists ws. split; [|done].
  simpl. unfold on_reader. cbn [tr_tag tr_r]. rewrite Hvv, Heq, Hleft. done.
Qed.

(** Three observers; the stream does not open on the second one visited. *)
Lemma reader_fanout_stops_at_failed_open_witness :
  let a := mkConn "a" (inl (mkWriter 1 None)) in
  let b := mkConn "b" (inr (errors_New "connection closed")) in
  let c := mkConn "c" (inl (mkWriter 3 None)) in
  let r := mkReadCloser 0 [] in
  let st := run_inputs init [InObserver (mkTaggedConnection "T" a);
                             InObserver (mkTaggedConnection "T" b);
                             InObserver (mkTaggedConnection "T" c)] in
  exists ws,
    step st (InReader (mkTaggedReader "T" r) ([("a", a)] ++ ("b", b) :: [("c", c)]))
    = (mkState (<["T" := list_to_map [("c", c)]]> (observers st)) (readers st),
       [EffLog core.Debug "failed to accept a uniStream"
          (Some (errors_New "connection closed"));
        EffGoCopyWithLog "T" (MultiWriter ws) r])
    /\ Forall2 (fun kc w => OpenUniStream kc.2 = inl w) [("a", a)] ws.
Proof.
  intros a b c r st.
  apply (reader_fanout_stops_at_failed_open st "T" r [("a", a)] [("c", c)] "b" b
           {[ "a" := a; "b" := b; "c" := c ]} (errors_New "connection closed")).
  - apply reachable_run_inputs; [constructor|].
    intros pre i post Heq.
    destruct pre as [|? [|? [|? [|? ?]]]]; simplify_eq/=; done.
  - by vm_compute.
  - vm_compute. symmetry. apply (Permutation_cons_append [_; _]).
  - intros k' c' [= -> ->]%list_elem_of_singleton. by eexists.
  - done.
Defined.

(** *** The end of a copy, in general *)

Lemma multiWrite_healthy (ws : list Writer) (p : list Z) :
  Forall (fun w => w_err w = None) ws -> multiWrite ws p = (length p, None).
Proof.
  induction 1 as [|w ws Hw _ IH]; simpl; [done|].
  unfold Write. by rewrite Hw, Nat.eqb_refl.
Qed.

(** A fan-out copy that runs to the end of the reader's stream, every
    destination taking every byte, makes [copyWithLog] send nothing on
    [readEOFChan] and log nothing; the supervisor's maps stay as they are. *)
Theorem fanout_copy_to_end_of_stream_sends_nothing (st : state) (tag : string)
    (ws : list Writer) (src : ReadCloser) :
  Forall (fun w => w_err w = None) ws ->
  Forall (fun read => read.2 = None \/ read.2 = Some io_EOF) (rc_reads src) ->
  copyWithLog tag (MultiWriter ws) src = (None, [])
  /\ after_copy st tag (MultiWriter ws) src = st.
Proof.
  intros Hws Hreads.
  assert (Hcopy : io_Copy (MultiWriter ws) (rc_reads src) = None).
  { apply io_Copy_end_of_stream; [|done]. intros p. by apply multiWrite_healthy. }
  unfold after_copy, copyWithLog. by rewrite Hcopy.
Qed.

(** Two healthy streams and a reader that gives five bytes in two reads. *)
Lemma fanout_copy_to_end_of_stream_sends_nothing_witness :
  let src := mkReadCloser 0 [([1; 2; 3]%Z, None); ([4; 5]%Z, Some io_EOF)] in
  let ws := [mkWriter 1 None; mkWriter 2 None] in
  copyWithLog "T" (MultiWriter ws) src = (None, [])
  /\ after_copy init "T" (MultiWriter ws) src = init.
Proof.
  intros src ws.
  apply (fanout_copy_to_end_of_stream_sends_nothing init "T" ws src).
  - by repeat constructor.
  - apply Forall_cons. split; [by left|].
    apply Forall_cons. split; [by right|]. constructor.
Defined.

End brokerRunFacts.

(** ** Peers and the accepting side of the broker *)
Module peerFacts.
Import Go io broker peer.

(** Of any sequence of calls of [SetObserveHandlerWriterTag] on a new peer,
    only the first takes effect, also when it sets the empty tag: the tag of
    the peer is the argument of the first call. *)
Theorem SetObserveHandlerWriterTag_first_call_wins (tags : list string) :
  observeHandlerWriterTag
    (foldl (fun p tag => SetObserveHandlerWriterTag tag p) NewPeer tags)
  = hd "" tags.
Proof.
  destruct tags as [|tag tags]; [done|]. simpl.
  change (SetObserveHandlerWriterTag tag NewPeer) with (mkPeer true tag).
  induction tags as [|tag' tags IH]; [done|]. by simpl.
Qed.

Lemma observing_handles_with_tag (tagWriterFunc : string -> Writer -> option error)
    (p : Peer) (opens : nat -> Writer + error) (ws : nat -> Writer)
    (rs : list ReadCloser) :
  observeHandlerWriterTag p <> "" ->
  (forall n, opens n = inl (ws n)) ->
  (forall w, tagWriterFunc (observeHandlerWriterTag p) w = None) ->
  forall n rest,
    observing tagWriterFunc p opens n ((inl <$> rs) ++ rest)
    = ((observing tagWriterFunc p opens (n + length rs) rest).1,
       concat (imap (fun i r =>
                 [EvOpenUniStream;
                  EvTagWritten (observeHandlerWriterTag p) (ws (n + i));
                  EvTagWritten (observeHandlerWriterTag p) (ws (n + i));
                  EvHandle r (Some (ws (n + i)))]) rs)
       ++ (observing tagWriterFunc p opens (n + length rs) rest).2).
Proof.
  intros Htag Hopens Hwrite.
  induction rs as [|r rs IH] using rev_ind; intros n rest.
  - simpl. rewrite Nat.add_0_r. by destruct (observing _ _ _ _ _).
  - rewrite fmap_app, <- (assoc (++)). rewrite IH.
    rewrite imap_app, concat_app, length_app. simpl.
    rewrite bool_decide_eq_false_2 by done.
    unfold Open. rewrite Hopens, Hwrite.
    replace (S (n + length rs)) with (n + (length rs + 1)) by lia.
    destruct (observing tagWriterFunc p opens (n + (length rs + 1)) rest) as [res evs].
    simpl. rewrite Nat.add_0_r. by rewrite <- (assoc (++)).
Qed.

(** With a writer tag set, every stream the peer accepts costs one new
    stream on the connection, and the tag is written to that stream twice,
    once by [Open] and once more by the loop, before the observer is given
    the reader and the stream.  (Streams open and tag writes succeed here;
    [ws n] is the [n]-th stream opened.) *)
Theorem observing_writes_the_tag_twice (tagWriterFunc : string -> Writer -> option error)
    (p : Peer) (opens : nat -> Writer + error) (ws : nat -> Writer)
    (rs : list ReadCloser) :
  observeHandlerWriterTag p <> "" ->
  (forall n, opens n = inl (ws n)) ->
  (forall w, tagWriterFunc (observeHandlerWriterTag p) w = None) ->
  observing tagWriterFunc p opens 0 (inl <$> rs)
  = (Blocked,
     concat (imap (fun i r =>
               [EvOpenUniStream;
                EvTagWritten (observeHandlerWriterTag p) (ws i);
                EvTagWritten (observeHandlerWriterTag p) (ws i);
                EvHandle r (Some (ws i))]) rs)).
Proof.
  intros Htag Hopens Hwrite.
  rewrite <- (app_nil_r (inl <$> rs)).
  rewrite (observing_handles_with_tag _ _ _ ws rs Htag Hopens Hwrite 0 []).
  simpl. by rewrite app_nil_r.
Qed.

(** Two streams accepted by a peer whose writer tag is ["out"]. *)
Lemma observing_writes_the_tag_twice_witness :
  let p := SetObserveHandlerWriterTag "out" NewPeer in
  let ws := fun n => mkWriter n None in
  let r0 := mkReadCloser 0 [] in
  let r1 := mkReadCloser 1 [] in
  observing (fun _ _ => None) p (fun n => inl (ws n)) 0 (inl <$> [r0; r1])
  = (Blocked,
     concat (imap (fun i r =>
               [EvOpenUniStream;
                EvTagWritten (observeHandlerWriterTag p) (ws i);
                EvTagWritten (observeHandlerWriterTag p) (ws i);
                EvHandle r (Some (ws i))]) [r0; r1])).
Proof.
  intros p ws r0 r1.
  by apply (observing_writes_the_tag_twice (fun _ _ => None) p
              (fun n => inl (ws n)) ws [r0; r1]).
Defined.

(** Without a writer tag the peer opens no stream and writes no tag: every
    accepted stream goes to the observer with [io.Discard] as its writer, and
    the loop returns the first error of [AcceptUniStream], whatever the
    connection would have answered to [OpenUniStream]. *)
Theorem observing_without_tag_discards (tagWriterFunc : string -> Writer -> option error)
    (p : Peer) (opens : nat -> Writer + error) (n : nat)
    (rs : list ReadCloser) (err : error) (rest : list (ReadCloser + error)) :
  observeHandlerWriterTag p = "" ->
  observing tagWriterFunc p opens n ((inl <$> rs) ++ inr err :: rest)
  = (Return err, (fun r => EvHandle r None) <$> rs).
Proof.
  intros Htag. induction rs as [|r rs IH]; [done|].
  rewrite fmap_cons. cbn [app observing].
  rewrite bool_decide_eq_true_2 by done. by rewrite IH.
Qed.

(** A peer whose first call set the empty tag. *)
Lemma observing_without_tag_discards_witness :
  let p := SetObserveHandlerWriterTag "out" (SetObserveHandlerWriterTag "" NewPeer) in
  let r0 := mkReadCloser 0 [] in
  observing (fun _ _ => None) p (fun n => inl (mkWriter n None)) 0
    ((inl <$> [r0]) ++ inr io_EOF :: [])
  = (Return io_EOF, (fun r => EvHandle r None) <$> [r0]).
Proof.
  intros p r0.
  by apply (observing_without_tag_discards (fun _ _ => None) p
              (fun n => inl (mkWriter n None)) 0 [r0] io_EOF []).
Defined.

(** [AcceptingStream] sends to the supervisor the streams it accepted
    before the context was done or [AcceptUniStream] failed, in order, each
    under the tag drained from it.  A stream whose tag cannot be drained is
    passed over: it is not sent, and the loop goes on to the next one.
    Nothing it does closes a stream: its effects are log lines. *)
Theorem AcceptingStream_sends_the_tagged_streams
    (drain : ReadCloser -> string + error) (rs : list ReadCloser)
    (stop : turn) (rest : list turn) :
  (forall r, stop <> Accept (inl r)) ->
  (AcceptingStream drain ((Accept ∘ inl <$> rs) ++ stop :: rest)).1
  = omap (tagged drain) rs
  /\ Forall (fun e => exists msg err, e = EffLog core.Debug msg err)
       (AcceptingStream drain ((Accept ∘ inl <$> rs) ++ stop :: rest)).2.
Proof.
  intros Hstop. induction rs as [|r rs [IHsent IHlogs]].
  - simpl. destruct stop as [|[r|err]]; simpl; [by split|by destruct (Hstop r)|].
    split; [done|]. repeat constructor. by eexists _, _.
  - rewrite fmap_cons. cbn [app AcceptingStream compose omap list_omap].
    unfold tagged at 1.
    destruct (AcceptingStream drain _) as [sent logs]. simpl in IHsent, IHlogs.
    destruct (drain r) as [tag|err]; simpl; rewrite IHsent; split; try done.
    constructor; [by eexists _, _|done].
Qed.

(** Three streams, the second without a readable tag, then a failure. *)
Lemma AcceptingStream_sends_the_tagged_streams_witness :
  let drain := fun r : ReadCloser =>
    if rc_id r =? 1 then inr (errors_New "no tag") else inl "T" in
  let rs := [mkReadCloser 0 []; mkReadCloser 1 []; mkReadCloser 2 []] in
  (AcceptingStream drain ((Accept ∘ inl <$> rs) ++ Accept (inr io_EOF) :: [])).1
  = omap (tagged drain) rs
  /\ Forall (fun e => exists msg err, e = EffLog core.Debug msg err)
       (AcceptingStream drain ((Accept ∘ inl <$> rs) ++ Accept (inr io_EOF) :: [])).2.
Proof.
  intros drain rs.
  apply (AcceptingStream_sends_the_tagged_streams drain rs (Accept (inr io_EOF)) []).
  discriminate.
Defined.

End peerFacts.

(** ** The pumps and the supervisor of the client *)
Module engineFacts.
Import Go frame core engine.

(** *** Reconnection *)

Lemma reconnect_retried (fuel : nat) (net : nat -> attempt) (k : nat) :
  retriable (net k) ->
  (reconnect (S fuel) net k).1 = (reconnect fuel net (S k)).1
  /\ slept (reconnect (S fuel) net k).2
     = (time_Second + slept (reconnect fuel net (S k)).2)%Z.
Proof.
  intros (err & Ho & He). simpl. rewrite Ho, He.
  by destruct (reconnect fuel net (S k)).
Qed.



(** While every attempt fails otherwise than by authentication, the loop at
    [reconnect:] never ends, one second of sleep per attempt, and it does so
    for every client: on the same network a [Connect] of a client without
    [connectUntilSucceed] returns the error of its first attempt. *)
Theorem reconnect_never_gives_up (c : Client) (net : nat -> attempt) :
  (forall k, retriable (net k)) ->
  observe_tags_missing c = false ->
  connectUntilSucceed (opts c) = false ->
  (forall fuel k,
     (reconnect fuel net k).1 = StillRetrying
     /\ slept (reconnect fuel net k).2 = (Z.of_nat fuel * time_Second)%Z)
  /\ forall fuel, (Connect (S fuel) c net).1 = Returned (openControlStream (net 0)).
Proof.
  intros Hall Hguard Hopt. split.
  - intros fuel. induction fuel as [|fuel IH]; intros k; [done|].
    destruct (reconnect_retried fuel net k (Hall k)) as [-> ->].
    destruct (IH (S k)) as [-> ->]. split; [done|lia].
  - intros fuel. unfold Connect. rewrite Hguard.
    destruct (Hall 0) as (err & Ho & _).
    rewrite (coreFacts.connect_loop_returns fuel (opts c) net 0 err Ho); [|by left].
    by rewrite Ho.
Qed.

(** A source with default options on a network that always times out. *)
Lemma reconnect_never_gives_up_witness :
  let c := NewClient "src" ClientTypeSource [] "id" in
  let net := fun _ : nat => mkAttempt (Some (errors_New "timeout")) None in
  (forall fuel k,
     (reconnect fuel net k).1 = StillRetrying
     /\ slept (reconnect fuel net k).2 = (Z.of_nat fuel * time_Second)%Z)
  /\ forall fuel, (Connect (S fuel) c net).1 = Returned (openControlStream (net 0)).
Proof.
  intros c net. apply (reconnect_never_gives_up c net); [|done|done].
  intros k. by exists (errors_New "timeout").
Defined.

(** *** The supervisor *)


Lemma closes_reconnect (fuel : nat) (net : nat -> attempt) :
  forall k, closes (reconnect fuel net k).2 = [].
Proof.
  induction fuel as [|fuel IH]; intros k; [done|]. simpl.
  destruct (openControlStream (net k)) as [err|]; [|done].
  destruct (errors_As_ErrAuthenticateFailed err); [done|].
  specialize (IH (S k)). by destruct (reconnect fuel net (S k)).
Qed.



(** A reconnection in progress is not interrupted: while the attempts keep
    failing otherwise than by authentication, the supervisor stays in the
    loop at [reconnect:] whatever arrives on its channels meanwhile, a
    [Close()] of the client and the end of the caller's context included,
    and closes nothing. *)
Theorem reconnection_is_not_interrupted (fuel : nat) (net : nat -> attempt)
    (s : sup) (rest : list sup_input) :
  (forall k, retriable (net k)) ->
  supervise fuel net s (Reconnection :: rest)
  = (SupRetrying, (reconnect fuel net (sup_next s)).2)
  /\ closes (supervise fuel net s (Reconnection :: rest)).2 = [].
Proof.
  intros Hall.
  assert (Hres : (reconnect fuel net (sup_next s)).1 = StillRetrying).
  { generalize (sup_next s). induction fuel as [|fuel IH]; intros k; [done|].
    destruct (reconnect_retried fuel net k (Hall k)) as [-> _]. apply IH. }
  pose proof (closes_reconnect fuel net (sup_next s)) as Hcl.
  cbn [supervise]. destruct (reconnect fuel net (sup_next s)) as [res evs].
  cbn [fst snd] in *. by subst.
Qed.

(** The client is closed while the network is down. *)
Lemma reconnection_is_not_interrupted_witness :
  let net := fun _ : nat => mkAttempt (Some (errors_New "timeout")) None in
  supervise 4 net (mkSup (Some 0) 1) (Reconnection :: [ClientCtxDone])
  = (SupRetrying, (reconnect 4 net 1).2)
  /\ closes (supervise 4 net (mkSup (Some 0) 1) (Reconnection :: [ClientCtxDone])).2 = [].
Proof.
  intros net. apply (reconnection_is_not_interrupted 4 net (mkSup (Some 0) 1)).
  intros k. by exists (errors_New "timeout").
Defined.

(** *** The pump *)


Lemma pump_cons_ok (hs : handlers) (i : pump_input) (rest : list pump_input)
    (c : Client) (reconnection : chan ()) :
  pump_turn_ok i ->
  pump hs (i :: rest) c reconnection
  = mkPumped (pm_client (pump hs rest c reconnection))
      (pm_reconnection (pump hs rest c reconnection))
      (pump_turn_events hs i ++ pm_events (pump hs rest c reconnection))
      (pm_returned (pump hs rest c reconnection)).
Proof.
  destruct i as [[f|err]|f [err|]]; try done; simpl;
    by destruct (pump hs rest c reconnection).
Qed.

Lemma pump_fail_before (evs before : list event) (err : error) (c : Client)
    (reconnection : chan ()) :
  mkPumped (pm_client (pump_fail before err c reconnection))
    (pm_reconnection (pump_fail before err c reconnection))
    (evs ++ pm_events (pump_fail before err c reconnection))
    (pm_returned (pump_fail before err c reconnection))
  = pump_fail (evs ++ before) err c reconnection.
Proof.
  unfold pump_fail. destruct (handleFrameError (Some err) reconnection c) as [[c' ch] hfe].
  simpl. by rewrite (assoc (++)).
Qed.

(** [processStream] ends at the first read or write that fails: the turns
    before it are carried out in order, the failed write is the last frame
    given to the data stream, the error goes through [handleFrameError]
    once, the data stream is closed, and whatever the channels hold after
    that turn is left there. *)
Theorem pump_stops_at_first_error (hs : handlers) (pre post : list pump_input)
    (bad : pump_input) (err : error) (c : Client) (reconnection : chan ()) :
  Forall pump_turn_ok pre ->
  pump_turn_err bad = Some err ->
  pump hs (pre ++ bad :: post) c reconnection
  = pump_fail (concat (pump_turn_events hs <$> pre) ++ pump_turn_events hs bad)
      err c reconnection
  /\ pm_returned (pump hs (pre ++ bad :: post) c reconnection) = true.
Proof.
  intros Hpre Hbad.
  assert (Heq : pump hs (pre ++ bad :: post) c reconnection
                = pump_fail (concat (pump_turn_events hs <$> pre) ++ pump_turn_events hs bad)
                    err c reconnection).
  { induction Hpre as [|i pre Hi _ IH].
    - destruct bad as [[f|e]|f [e|]]; simplify_eq/=; done.
    - cbn [app]. rewrite pump_cons_ok by done. rewrite IH.
      rewrite pump_fail_before. by rewrite fmap_cons, concat_cons, (assoc (++)). }
  split; [done|]. rewrite Heq. unfold pump_fail.
  by destruct (handleFrameError (Some err) reconnection c) as [[??]?].
Qed.

(** A data frame is handled, a frame is written, and the next write fails
    on a broken connection. *)
Lemma pump_stops_at_first_error_witness :
  let hs := mkHandlers (Some (fun _ => Returns)) None in
  let f := FData (mkDataFrame 33 None (Some [1]%Z) false) in
  let err := errors_New "connection reset" in
  let c := NewClient "sfn" ClientTypeStreamFunction [] "id" in
  let pre := [Read (inl f); Send f None] in
  pump hs (pre ++ Send f (Some err) :: [Read (inl f)]) c (make_chan 0)
  = pump_fail (concat (pump_turn_events hs <$> pre)
               ++ pump_turn_events hs (Send f (Some err)))
      err c (make_chan 0)
  /\ pm_returned (pump hs (pre ++ Send f (Some err) :: [Read (inl f)]) c (make_chan 0))
     = true.
Proof.
  intros hs f err c pre.
  apply (pump_stops_at_first_error hs pre [Read (inl f)] (Send f (Some err)) err c
           (make_chan 0)); [|done].
  by repeat constructor.
Defined.

(** The frames that [readFrame] passes on are those read before the first
    read error, and that error: its goroutine reads no further.  A pump fed
    by them alone handles every one of those frames, in order, and ends on
    the error. *)
Theorem readFrame_feeds_the_pump (hs : handlers) (frames : list Frame) (err : error)
    (rest : list (Frame + error)) (c : Client) (reconnection : chan ()) :
  readFrame ((inl <$> frames) ++ inr err :: rest) = (inl <$> frames) ++ [inr err]
  /\ pump hs (Read <$> readFrame ((inl <$> frames) ++ inr err :: rest)) c reconnection
     = pump_fail (concat (handleFrame_recovered hs <$> frames)) err c reconnection.
Proof.
  assert (Hread : readFrame ((inl <$> frames) ++ inr err :: rest)
                  = (inl <$> frames) ++ [inr err]).
  { induction frames as [|f frames IH]; [done|].
    rewrite fmap_cons. cbn [app readFrame]. by rewrite IH. }
  split; [done|]. rewrite Hread, fmap_app. cbn [fmap list_fmap].
  destruct (pump_stops_at_first_error hs (Read <$> (inl <$> frames)) [] (Read (inr err))
              err c reconnection) as [-> _]; [|done|].
  - apply Forall_fmap, Forall_fmap, Forall_true. by intros f.
  - cbn [pump_turn_events]. rewrite app_nil_r. f_equal. f_equal.
    rewrite <- !list_fmap_compose. by apply list_fmap_ext.
Qed.



(** *** RequestStream *)

(** [RequestStream] never returns a stream together with an error, nor
    neither of them.  The error handler is called exactly for an error that
    is not [io.EOF], once and with that error; on [io.EOF] it is not called.
    And when the handshake request itself fails with [io.EOF], so that there
    is no stream, the call panics: it calls [Close] on the nil stream. *)
Theorem RequestStream_outcomes (ans : stream_answer) :
  (forall dataStream err,
     (RequestStream ans).1 = RequestReturns dataStream err ->
     (dataStream = None /\ err <> None) \/ (dataStream <> None /\ err = None))
  /\ (forall err,
        (RequestStream ans).1 = RequestReturns None (Some err) ->
        reported (RequestStream ans).2 = if is_io_EOF err then [] else [err])
  /\ (request_err ans = Some io_EOF -> (RequestStream ans).1 = RequestPanics).
Proof.
  unfold RequestStream, openDataStream.
  destruct ans as [[rerr|] [ds|] [aerr|]]; cbn [request_err accepted_stream accept_err];
    repeat match goal with
      | |- context [is_io_EOF ?e] => destruct (is_io_EOF e) eqn:?
      end;
    (split; [|split]); simpl; intros; simplify_eq; try done;
    try (by left); try (by right);
    try match goal with
      | H : is_io_EOF ?e = _ |- _ => rewrite H; done
      | H : is_io_EOF io_EOF = false |- _ => by vm_compute in H
      end.
Qed.

(** The server closes the control stream while the handshake is sent. *)
Lemma RequestStream_outcomes_witness :
  (RequestStream (mkStreamAnswer (Some io_EOF) None None)).1 = RequestPanics.
Proof.
  exact (proj2 (proj2 (RequestStream_outcomes (mkStreamAnswer (Some io_EOF) None None)))
           eq_refl).
Defined.

(** *** SetObserveDataTags and Connect *)

Lemma connect_loop_option (fuel : nat) (o o' : clientOptions) (net : nat -> attempt) :
  connectUntilSucceed o = connectUntilSucceed o' ->
  forall k, connect_loop fuel o net k = connect_loop fuel o' net k.
Proof.
  intros Hopt. induction fuel as [|fuel IH]; intros k; [done|]. simpl.
  by rewrite Hopt, IH.
Qed.

(** After [SetObserveDataTags] with at least one tag, [Connect] passes its
    guard for a client of any type and is its connection loop; after a call
    with no tag at all, a stream function is refused again. *)
Theorem SetObserveDataTags_lifts_the_guard (fuel : nat) (c : Client)
    (tags : list Z) (net : nat -> attempt) :
  tags <> [] ->
  Connect fuel (SetObserveDataTags tags c) net = connect_loop fuel (opts c) net 0
  /\ (clientType c = ClientTypeStreamFunction ->
      Connect fuel (SetObserveDataTags [] (SetObserveDataTags tags c)) net
      = (Returned (Some errObserveTagNotSet), [])).
Proof.
  intros Htags. split.
  - unfold Connect.
    destruct (observe_tags_missing (SetObserveDataTags tags c)) eqn:Hg.
    + apply coreFacts.observe_tags_missing_spec in Hg as [_ Hg]. by simpl in Hg.
    + by apply connect_loop_option.
  - intros Hty. unfold Connect.
    by rewrite (proj2 (coreFacts.observe_tags_missing_spec
                         (SetObserveDataTags [] (SetObserveDataTags tags c)))
                  (conj Hty eq_refl)).
Qed.

(** The stream function of the tests, which observes the tag 0x21. *)
Lemma SetObserveDataTags_lifts_the_guard_witness :
  let c := NewClient "sfn-async-log-events" ClientTypeStreamFunction [] "id" in
  let net := fun _ : nat => mkAttempt None None in
  Connect 1 (SetObserveDataTags [33%Z] c) net = connect_loop 1 (opts c) net 0
  /\ (clientType c = ClientTypeStreamFunction ->
      Connect 1 (SetObserveDataTags [] (SetObserveDataTags [33%Z] c)) net
      = (Returned (Some errObserveTagNotSet), [])).
Proof.
  intros c net.
  by apply (SetObserveDataTags_lifts_the_guard 1 c [33%Z] net).
Defined.

End engineFacts.

(** ** The other codecs, and more on the StreamFrame codec *)
Module y3codecMoreFacts.
Import Go frame y3 y3codec y3codec_more y3refFacts.
Local Open Scope Z_scope.

Section Codecs.
Context {L : Lib}.

(** A HandshakeAckFrame is restored exactly by [decodeHandshakeAckFrame]
    from the bytes of [encodeHandshakeAckFrame], empty strings and a zero or
    negative [StreamID] included, into whatever frame it is decoded: for a
    library that keeps its contract, a frame type that is a sequence number,
    a [StreamID] in the range of an [int64], and strings that fit the
    node. *)
Theorem HandshakeAckFrame_round_trip (ty : Z) (f f0 : HandshakeAckFrame) :
  LibLaws L ->
  0 <= ty <= 63 ->
  Z.of_nat (String.length (AckID f)) + Z.of_nat (String.length (AckClientID f)) + 28
    < 2 ^ 31 ->
  - 2 ^ 63 <= AckStreamID f < 2 ^ 63 ->
  decodeHandshakeAckFrame (encodeHandshakeAckFrame ty f) f0 = (f, None).
Proof.
  intros Hlaws Hty Hlen Hsid. unfold decodeHandshakeAckFrame, encodeHandshakeAckFrame.
  rewrite (node_packets L Hlaws).
  - unfold decode_block. cbn [list_to_map foldr uncurry fst snd].
    unfold tagHandshakeAckID, tagHandshakeAckClientID, tagHandshakeAckStreamID.
    rewrite (lookup_insert_eq _ 38).
    rewrite (string_value L Hlaws).
    rewrite (lookup_insert_ne _ 38 39) by done. rewrite (lookup_insert_eq _ 39).
    rewrite (string_value L Hlaws).
    rewrite (lookup_insert_ne _ 38 40) by done.
    rewrite (lookup_insert_ne _ 39 40) by done. rewrite (lookup_insert_eq _ 40).
    rewrite (int64_value L Hlaws) by done. by destruct f.
  - done.
  - repeat constructor;
      unfold tagHandshakeAckID, tagHandshakeAckClientID, tagHandshakeAckStreamID;
      simpl; lia.
  - unfold tagHandshakeAckID, tagHandshakeAckClientID, tagHandshakeAckStreamID.
    cbn [fmap list_fmap fst]. by apply (bool_decide_unpack _).
  - unfold payload_size. cbn [foldr snd].
    pose proof (string_length L Hlaws (AckID f)) as H1.
    pose proof (string_length L Hlaws (AckClientID f)) as H2.
    pose proof (int64_length L Hlaws (AckStreamID f) Hsid) as H3.
    lia.
Qed.

(** The earlier StreamFrame, with its string [StreamID], is restored by the
    earlier codec when its [ChunkSize] is below [2^31]. *)
Theorem StreamFrame0_round_trip (ty : Z) (f f0 : StreamFrame0) :
  LibLaws L ->
  0 <= ty <= 63 ->
  Z.of_nat (String.length (StreamID0 f)) + 17 < 2 ^ 31 ->
  0 <= ChunkSize0 f < 2 ^ 31 ->
  decodeStreamFrame0 (encodeStreamFrame0 ty f) f0 = (f, None).
Proof.
  intros Hlaws Hty Hlen Hcs. unfold decodeStreamFrame0, encodeStreamFrame0.
  assert (Hu32 : uint32_of_uint (ChunkSize0 f) = ChunkSize0 f).
  { unfold uint32_of_uint. rewrite Z.mod_small; lia. }
  rewrite Hu32, (node_packets L Hlaws).
  - unfold decode_block. cbn [list_to_map foldr uncurry fst snd].
    unfold tagStreamID0, tagStreamChunkSize0.
    rewrite (lookup_insert_eq _ 1).
    rewrite (string_value L Hlaws).
    rewrite (lookup_insert_ne _ 1 2) by done. rewrite (lookup_insert_eq _ 2).
    rewrite (uint32_value_as_int32 L Hlaws) by done.
    rewrite uint_of_int32_id by done. by destruct f.
  - done.
  - repeat constructor; unfold tagStreamID0, tagStreamChunkSize0; simpl; lia.
  - unfold tagStreamID0, tagStreamChunkSize0.
    cbn [fmap list_fmap fst]. by apply (bool_decide_unpack _).
  - unfold payload_size. cbn [foldr snd].
    pose proof (string_length L Hlaws (StreamID0 f)) as H1.
    pose proof (uint32_length L Hlaws (ChunkSize0 f) ltac:(lia)) as H3.
    lia.
Qed.

(** [decodeStreamFrame] assigns the fields one after the other, so a
    decoding that fails half way has changed the frame: when the [ID] packet
    reads well and the [StreamID] packet does not, the error comes back with
    a frame whose [ID] is already the decoded one, the other two fields being
    those the frame had. *)
Theorem decodeStreamFrame_fails_half_way (data : list Z)
    (node : gmap Z (list Z)) (p1 p2 : list Z) (id : string) (err : error)
    (f : StreamFrame) :
  DecodeToNodePacket data = inr node ->
  node !! tagStreamClientID = Some p1 ->
  ToUTF8String p1 = inr id ->
  node !! tagStreamID = Some p2 ->
  ToInt64 p2 = inl err ->
  decodeStreamFrame data f = (mkStreamFrame id (StreamID f) (ChunkSize f), Some err).
Proof.
  intros Hnode H1 Hid H2 Herr. unfold decodeStreamFrame, decode_field.
  by rewrite Hnode, H1, Hid, H2, Herr.
Qed.

(** Whatever its [ChunkSize], a StreamFrame that goes through
    [encodeStreamFrame] and [decodeStreamFrame] keeps its [ID] and its
    [StreamID]: only the chunk size can come back changed. *)
Theorem StreamFrame_ID_and_StreamID_restored (ty : Z) (f f0 : StreamFrame) :
  LibLaws L ->
  0 <= ty <= 63 ->
  Z.of_nat (String.length (ID f)) + 33 < 2 ^ 31 ->
  - 2 ^ 63 <= StreamID f < 2 ^ 63 ->
  ID (decodeStreamFrame (encodeStreamFrame ty f) f0).1 = ID f
  /\ StreamID (decodeStreamFrame (encodeStreamFrame ty f) f0).1 = StreamID f.
Proof.
  intros Hlaws Hty Hid Hsid. unfold decodeStreamFrame, encodeStreamFrame.
  assert (Hu32 : 0 <= uint32_of_uint (ChunkSize f) < 2 ^ 32).
  { unfold uint32_of_uint. apply Z.mod_pos_bound. lia. }
  rewrite (node_packets L Hlaws).
  - unfold decode_field. cbn [list_to_map foldr uncurry fst snd].
    unfold tagStreamClientID, tagStreamID, tagStreamChunkSize.
    rewrite (lookup_insert_eq _ 1).
    rewrite (string_value L Hlaws).
    rewrite (lookup_insert_ne _ 1 2) by done. rewrite (lookup_insert_eq _ 2).
    rewrite (int64_value L Hlaws) by done.
    rewrite (lookup_insert_ne _ 1 3) by done.
    rewrite (lookup_insert_ne _ 2 3) by done. rewrite (lookup_insert_eq _ 3).
    by destruct (ToInt32 _).
  - done.
  - repeat constructor; unfold tagStreamClientID, tagStreamID, tagStreamChunkSize;
      simpl; lia.
  - unfold tagStreamClientID, tagStreamID, tagStreamChunkSize. cbn [fmap list_fmap fst].
    by apply (bool_decide_unpack _).
  - unfold payload_size. cbn [foldr snd].
    pose proof (string_length L Hlaws (ID f)) as H1.
    pose proof (int64_length L Hlaws (StreamID f) Hsid) as H2.
    pose proof (uint32_length L Hlaws _ Hu32) as H3.
    lia.
Qed.

End Codecs.

(** An acknowledgement with an empty [ID], over the reference library. *)
Lemma HandshakeAckFrame_round_trip_witness :
  @decodeHandshakeAckFrame y3ref.lib
    (@encodeHandshakeAckFrame y3ref.lib 41 (mkHandshakeAckFrame "" "client-1" (-7)))
    (mkHandshakeAckFrame "old" "old" 5)
  = (mkHandshakeAckFrame "" "client-1" (-7), None).
Proof.
  apply (@HandshakeAckFrame_round_trip y3ref.lib 41
           (mkHandshakeAckFrame "" "client-1" (-7)) (mkHandshakeAckFrame "old" "old" 5)
           lib_laws); cbn [AckID AckClientID AckStreamID]; done.
Defined.

Lemma StreamFrame0_round_trip_witness :
  @decodeStreamFrame0 y3ref.lib
    (@encodeStreamFrame0 y3ref.lib 47 (mkStreamFrame0 "12" 1024))
    (mkStreamFrame0 "" 0)
  = (mkStreamFrame0 "12" 1024, None).
Proof.
  apply (@StreamFrame0_round_trip y3ref.lib 47 (mkStreamFrame0 "12" 1024)
           (mkStreamFrame0 "" 0) lib_laws); cbn [StreamID0 ChunkSize0]; done.
Defined.

(** A node whose [StreamID] packet holds a byte that announces a next byte
    and nothing after it. *)
Lemma decodeStreamFrame_fails_half_way_witness :
  let data := @Encode y3ref.lib 47 [(1, @SetStringValue y3ref.lib "new"); (2, [128])] in
  @decodeStreamFrame y3ref.lib data (mkStreamFrame "old" 5 1024)
  = (mkStreamFrame "new" 5 1024, Some y3ref.ErrMalformed).
Proof.
  intros data.
  apply (@decodeStreamFrame_fails_half_way y3ref.lib data
           (list_to_map [(1, @SetStringValue y3ref.lib "new"); (2, [128])])
           (@SetStringValue y3ref.lib "new") [128] "new" y3ref.ErrMalformed
           (mkStreamFrame "old" 5 1024)); by vm_compute.
Defined.

(** A chunk size that does not come back, with an [ID] and a [StreamID]
    that do. *)
Lemma StreamFrame_ID_and_StreamID_restored_witness :
  let f := mkStreamFrame "stream-1" 12 4294967295 in
  ID (@decodeStreamFrame y3ref.lib (@encodeStreamFrame y3ref.lib 47 f) zeroStreamFrame).1
  = ID f
  /\ StreamID
       (@decodeStreamFrame y3ref.lib (@encodeStreamFrame y3ref.lib 47 f) zeroStreamFrame).1
     = StreamID f.
Proof.
  intros f.
  apply (@StreamFrame_ID_and_StreamID_restored y3ref.lib 47 f zeroStreamFrame lib_laws);
    cbn [ID StreamID]; done.
Defined.

End y3codecMoreFacts.

(** ** The metadata of a data frame *)
Module metadataFacts.
Import metadata.

(** The getters read back the five arguments of [NewDefaultMetadata]. *)
Theorem getters_read_NewDefaultMetadata (sourceID tid sid : string)
    (traced streamed : bool) :
  read_all (NewDefaultMetadata sourceID tid sid traced streamed)
  = (sourceID, tid, sid, traced, streamed).
Proof.
  unfold read_all, NewDefaultMetadata, GetSourceIDFromMetadata, GetTIDFromMetadata,
    GetSIDFromMetadata, GetTracedFromMetadata, GetStreamedFromMetadata, M_Get.
  unfold MetadataSourceIDKey, MetadataTIDKey, MetadataSIDKey, MetaTraced, MetaStreamed.
  repeat (rewrite ?lookup_insert_eq; rewrite ?lookup_insert_ne by done).
  by destruct traced, streamed.
Qed.

Lemma bool_string_true (b : bool) : bool_decide (bool_string b = "true") = b.
Proof. by destruct b. Qed.

(** Each setter changes what its own getter reads to the value set, the
    flags going through the texts "true" and "false", and leaves what the
    other four getters read as it was. *)
Theorem setters_change_one_value (m : gmap string string) (tid sid : string)
    (traced streamed : bool) :
  read_all (SetTIDToMetadata m tid)
  = (GetSourceIDFromMetadata m, tid, GetSIDFromMetadata m,
     GetTracedFromMetadata m, GetStreamedFromMetadata m)
  /\ read_all (SetSIDToMetadata m sid)
     = (GetSourceIDFromMetadata m, GetTIDFromMetadata m, sid,
        GetTracedFromMetadata m, GetStreamedFromMetadata m)
  /\ read_all (SetTracedToMetadata m traced)
     = (GetSourceIDFromMetadata m, GetTIDFromMetadata m, GetSIDFromMetadata m,
        traced, GetStreamedFromMetadata m)
  /\ read_all (SetStreamedToMetadata m streamed)
     = (GetSourceIDFromMetadata m, GetTIDFromMetadata m, GetSIDFromMetadata m,
        GetTracedFromMetadata m, streamed).
Proof.
  unfold read_all, SetTIDToMetadata, SetSIDToMetadata, SetTracedToMetadata,
    SetStreamedToMetadata, M_Set, GetSourceIDFromMetadata, GetTIDFromMetadata,
    GetSIDFromMetadata, GetTracedFromMetadata, GetStreamedFromMetadata, M_Get.
  unfold MetadataSourceIDKey, MetadataTIDKey, MetadataSIDKey, MetaTraced, MetaStreamed.
  repeat split;
    repeat (rewrite ?lookup_insert_eq; rewrite ?lookup_insert_ne by done);
    cbn [fst]; by rewrite ?bool_string_true.
Qed.

(** A flag reads as true only when its key holds exactly the text "true":
    a missing key and any other text read as false, and a missing text key
    reads as the empty string. *)
Theorem getters_on_missing_or_other_values (m : gmap string string) :
  (GetTracedFromMetadata m = true <-> m !! MetaTraced = Some "true")
  /\ (GetStreamedFromMetadata m = true <-> m !! MetaStreamed = Some "true")
  /\ (m !! MetadataSourceIDKey = None -> GetSourceIDFromMetadata m = "")
  /\ (m !! MetadataTIDKey = None -> GetTIDFromMetadata m = "")
  /\ (m !! MetadataSIDKey = None -> GetSIDFromMetadata m = "").
Proof.
  unfold GetTracedFromMetadata, GetStreamedFromMetadata, GetSourceIDFromMetadata,
    GetTIDFromMetadata, GetSIDFromMetadata, M_Get.
  repeat split; try (by intros ->);
    rewrite ?bool_decide_eq_true;
    try (destruct (m !! _) as [v|]; simpl; by intros; simplify_eq).
Qed.

End metadataFacts.

(** ** The serverless context, over several writes *)
Module serverlessWritesFacts.
Import Go frame serverless serverless_writes.

(** Whatever a handler writes through its context, and however the writer
    answers, the writer is given one DataFrame for each write of non-nil
    data, in the order of the writes, each with the metadata of the incoming
    frame and none marked as streamed; the incoming frame of the context is
    never changed. *)
Theorem Context_writes_in_order (c : Context recorder) (writes : list (Z * byteSlice)) :
  rec_written (writer (Writes c writes))
  = rec_written (writer c) ++ omap (written_frame c) writes
  /\ dataFrame (Writes c writes) = dataFrame c.
Proof.
  unfold Writes. revert c. induction writes as [|[tag data] writes IH]; intros c.
  - simpl. by rewrite app_nil_r.
  - cbn [foldl fst snd]. destruct (IH (Write tag data c).1) as [IHw IHf].
    rewrite IHw, IHf. destruct data as [p|]; simpl.
    + by rewrite <- (assoc (++)).
    + done.
Qed.

End serverlessWritesFacts.
